(** * Likelihood kernels of [ipcoal]: a shallow embedding

    The development follows two source files:

    - [src/ipcoal/msc/src/likelihood.py]: the two multispecies-coalescent
      kernels [_get_msc_loglik_from_embedding_array] (Ne stored raw) and
      [_get_msc_loglik_from_embedding] (2Ne stored);
    - [src/ipcoal/smc/src/likelihood.py]: the population-size update
      [_update_neffs], the rate provider [get_recomb_event_lambdas], the
      waiting-distance kernel [get_ms_smc_loglik_from_embedding] and its
      wrapper [get_ms_smc_loglik].

    Numbers.  A numpy [float64] is modelled by an extended real: a real
    number, one of the two infinities, or NaN.  The operations propagate
    infinities and NaN the way IEEE-754 does; rounding, overflow, underflow
    and the sign of zero are not modelled.

    Errors.  A Python exception is a value [Raise e] of the [result] type.
    In interpreted code indexing is checked the way the interpreter and
    numpy check it ([IndexError]).  The two kernels are compiled by numba
    with [parallel=True]: their loop body is a parallel region, compiled
    under the numpy error model, so a division by zero raises nothing and
    gives an infinity or NaN.  Compiled code does not check array bounds,
    and its [int(x)] is a machine cast: an out-of-range read and the
    conversion of an infinity or NaN are undefined there.  The model marks
    these cases by [Raise]; where a kernel is [Raise e] in the model, the
    statements say nothing about what the compiled kernel does.  A
    list of rows has no column count of its own: on an array without rows
    the model cannot tell whether numpy would find a field 3. *)

From Stdlib Require Import Reals Lra Lia ZArith List Bool.
Import ListNotations.

(** ** Exceptions and the error monad *)

Inductive exn : Type :=
| IndexError
| ValueError
| OverflowError
| AssertionError
| ExternalError.

Inductive result (A : Type) : Type :=
| Ok (a : A)
| Raise (e : exn).

Arguments Ok {A} a.
Arguments Raise {A} e.

Definition bind {A B : Type} (m : result A) (k : A -> result B) : result B :=
  match m with
  | Ok a => k a
  | Raise e => Raise e
  end.

Declare Scope py_scope.
Delimit Scope py_scope with py.
Notation "x <- m ;; k" := (bind m (fun x => k))
  (at level 61, m at next level, right associativity) : py_scope.
Local Open Scope py_scope.

(** [mapM f xs]: a comprehension or vectorised call; the first exception
    aborts it. *)
Fixpoint mapM {A B : Type} (f : A -> result B) (xs : list A) : result (list B) :=
  match xs with
  | [] => Ok []
  | x :: rest =>
      y <- f x ;;
      ys <- mapM f rest ;;
      Ok (y :: ys)
  end.

(** [foldM step xs acc]: a [for] loop over [xs] that threads [acc]. *)
Fixpoint foldM {A S : Type} (step : S -> A -> result S) (xs : list A) (acc : S)
  : result S :=
  match xs with
  | [] => Ok acc
  | x :: rest =>
      acc' <- step acc x ;;
      foldM step rest acc'
  end.

(** ** The float64 model *)

Inductive float64 : Type :=
| Fin (r : R)
| PInf
| NInf
| NaN.

Definition fneg (x : float64) : float64 :=
  match x with
  | Fin r => Fin (- r)
  | PInf => NInf
  | NInf => PInf
  | NaN => NaN
  end.

Definition fadd (x y : float64) : float64 :=
  match x, y with
  | NaN, _ | _, NaN => NaN
  | Fin a, Fin b => Fin (a + b)
  | PInf, NInf | NInf, PInf => NaN
  | PInf, _ | _, PInf => PInf
  | NInf, _ | _, NInf => NInf
  end.

Definition fsub (x y : float64) : float64 := fadd x (fneg y).

(** An infinity [i] multiplied by the finite [a]: the sign of [a] decides,
    and a zero gives NaN. *)
Definition scale_inf (a : R) (i : float64) : float64 :=
  if Rlt_dec 0 a then i
  else if Rlt_dec a 0 then fneg i
  else NaN.

Definition fmul (x y : float64) : float64 :=
  match x, y with
  | NaN, _ | _, NaN => NaN
  | Fin a, Fin b => Fin (a * b)
  | Fin a, PInf | PInf, Fin a => scale_inf a PInf
  | Fin a, NInf | NInf, Fin a => scale_inf a NInf
  | PInf, PInf | NInf, NInf => PInf
  | PInf, NInf | NInf, PInf => NInf
  end.

(** numpy's division: a zero divisor gives an infinity or NaN. *)
Definition fdiv (x y : float64) : float64 :=
  match x, y with
  | NaN, _ | _, NaN => NaN
  | Fin a, Fin b =>
      if Req_dec_T b 0 then scale_inf a PInf else Fin (a / b)
  | Fin _, PInf | Fin _, NInf => Fin 0
  | PInf, Fin b => if Rlt_dec b 0 then NInf else PInf
  | NInf, Fin b => if Rlt_dec b 0 then PInf else NInf
  | PInf, PInf | PInf, NInf | NInf, PInf | NInf, NInf => NaN
  end.

(** The scalar [/] inside the parallel loop of a kernel: numba compiles
    the body of a [prange] loop under the numpy error model, so a zero
    divisor raises nothing. *)
Definition truediv (x y : float64) : result float64 :=
  Ok (fdiv x y).

Definition fexp (x : float64) : float64 :=
  match x with
  | Fin r => Fin (exp r)
  | PInf => PInf
  | NInf => Fin 0
  | NaN => NaN
  end.

Definition flog (x : float64) : float64 :=
  match x with
  | Fin r =>
      if Rlt_dec 0 r then Fin (ln r)
      else if Req_dec_T r 0 then NInf
      else NaN
  | PInf => PInf
  | NInf => NaN
  | NaN => NaN
  end.

(** [x > y], [x >= y] and [x == y]; every comparison with NaN is false. *)
Definition fgt (x y : float64) : bool :=
  match x, y with
  | Fin a, Fin b => if Rlt_dec b a then true else false
  | PInf, Fin _ | PInf, NInf | Fin _, NInf => true
  | _, _ => false
  end.

Definition fge (x y : float64) : bool :=
  match x, y with
  | Fin a, Fin b => if Rle_dec b a then true else false
  | PInf, Fin _ | PInf, NInf | Fin _, NInf | PInf, PInf | NInf, NInf => true
  | _, _ => false
  end.

Definition feq (x y : float64) : bool :=
  match x, y with
  | Fin a, Fin b => if Req_dec_T a b then true else false
  | PInf, PInf | NInf, NInf => true
  | _, _ => false
  end.

Definition isinf (x : float64) : bool :=
  match x with
  | PInf | NInf => true
  | _ => false
  end.

Definition isnan (x : float64) : bool :=
  match x with
  | NaN => true
  | _ => false
  end.

(** Truncation toward zero, and [int(x)] built on it.  The interpreter
    raises on an infinity or NaN; the compiled cast of the kernels is
    undefined there, which [Raise] marks as well. *)
Definition Ztrunc (r : R) : Z :=
  if Rle_dec 0 r then Zfloor r else Zceil r.

Definition py_int (x : float64) : result Z :=
  match x with
  | Fin r => Ok (Ztrunc r)
  | PInf | NInf => Raise OverflowError
  | NaN => Raise ValueError
  end.

(** An integer used where a float is expected. *)
Definition of_Z (z : Z) : float64 := Fin (IZR z).
Definition of_nat (n : nat) : float64 := Fin (INR n).

(** ** Arrays and indexing *)

(** [a[i]] with Python's negative indices.  Out of range, the interpreter
    and numpy raise [IndexError]; in the compiled kernels, which do not
    check bounds, [Raise IndexError] marks an undefined read. *)
Definition getitem {A : Type} (a : list A) (i : Z) : result A :=
  let n := Z.of_nat (length a) in
  let j := if (i <? 0)%Z then (i + n)%Z else i in
  if ((0 <=? j) && (j <? n))%Z then
    match nth_error a (Z.to_nat j) with
    | Some x => Ok x
    | None => Raise IndexError
    end
  else Raise IndexError.

(** [a[i] = v] with a non-negative index, as state passing. *)
Fixpoint setitem {A : Type} (a : list A) (i : nat) (v : A) : result (list A) :=
  match a, i with
  | [], _ => Raise IndexError
  | _ :: rest, O => Ok (v :: rest)
  | x :: rest, S i' =>
      rest' <- setitem rest i' v ;;
      Ok (x :: rest')
  end.

(** One row of an embedding array, a table of rows (one genealogy), and
    the three-dimensional array [genealogy, row, field]. *)
Definition row : Type := list float64.
Definition ndarray2 : Type := list row.
Definition ndarray3 : Type := list ndarray2.

Definition getitem2 (a : ndarray2) (i j : Z) : result float64 :=
  r <- getitem a i ;;
  getitem r j.

Definition getitem3 (a : ndarray3) (i j k : Z) : result float64 :=
  g <- getitem a i ;;
  getitem2 g j k.

(** [a[:, j]] *)
Definition column (a : ndarray2) (j : Z) : result (list float64) :=
  mapM (fun r => getitem r j) a.

(** [a[mask]] for a boolean mask over the rows. *)
Fixpoint compress {A : Type} (mask : list bool) (a : list A) : list A :=
  match mask, a with
  | m :: mask', x :: a' =>
      if m then x :: compress mask' a' else compress mask' a'
  | _, _ => []
  end.

(** [range(n)] *)
Definition range (n : Z) : list Z :=
  map Z.of_nat (seq 0 (Z.to_nat n)).

(** [a.sum()] *)
Definition np_sum (a : list float64) : float64 :=
  fold_left fadd a (Fin 0).

(** ** The multispecies-coalescent kernels ([msc/src/likelihood.py]) *)

(** The two entry points differ in one line, the coalescent rate of an
    interval; the rest of their bodies is the same text. *)
Inductive convention : Type :=
| ConvA   (* field 3 holds Ne:  rate = 1 / (2 * iarr[0, 3]) *)
| ConvB.  (* field 3 holds 2Ne: rate = 1 / iarr[0, 3] *)

Definition coal_rate (c : convention) (ne : float64) : result float64 :=
  match c with
  | ConvA => truediv (Fin 1) (fmul (Fin 2) ne)
  | ConvB => truediv (Fin 1) ne
  end.

(** [npairs = (nedges * (nedges - 1)) / 2] *)
Definition npairs_of (nedges : float64) : float64 :=
  fdiv (fmul nedges (fsub nedges (Fin 1))) (Fin 2).

(** The factor of one coalescence row:
    [rate * np.exp(-lambda_ * dist)] with [lambda_ = rate * npairs]. *)
Definition coal_factor (rate nedges dist : float64) : float64 :=
  let npairs := npairs_of nedges in
  let lambda_ := fmul rate npairs in
  fmul rate (fexp (fmul (fneg lambda_) dist)).

(** [for ridx in range(iarr.shape[0] - 1): ... prob *= ...], run over the
    row indices [ridxs] from the running probability [prob]. *)
Fixpoint coal_loop (rate : float64) (iarr : ndarray2) (ridxs : list nat)
    (prob : float64) : result float64 :=
  match ridxs with
  | [] => Ok prob
  | ridx :: rest =>
      nedges <- getitem2 iarr (Z.of_nat ridx) 4 ;;
      dist <- getitem2 iarr (Z.of_nat ridx) 5 ;;
      coal_loop rate iarr rest (fmul prob (coal_factor rate nedges dist))
  end.

(** The last row of the group: no coalescence in the remaining time. *)
Definition last_step (rate : float64) (iarr : ndarray2) (prob : float64)
  : result float64 :=
  nedges <- getitem2 iarr (-1) 4 ;;
  let npairs := npairs_of nedges in
  let lambda_ := fmul rate npairs in
  dist <- getitem2 iarr (-1) 5 ;;
  Ok (if negb (isinf dist)
      then fmul prob (fexp (fmul (fneg lambda_) dist))
      else prob).

(** The probability of all events of one species-tree interval, from the
    group [iarr] of its rows. *)
Definition interval_prob (c : convention) (iarr : ndarray2) : result float64 :=
  ne <- getitem2 iarr 0 3 ;;
  rate <- coal_rate c ne ;;
  prob <- coal_loop rate iarr (seq 0 (length iarr - 1)) (Fin 1) ;;
  last_step rate iarr prob.

(** [iarr = garr[garr[:, 2] == sval]] *)
Definition select_interval (garr : ndarray2) (sval : Z) : result ndarray2 :=
  col <- column garr 2 ;;
  Ok (compress (map (fun x => feq x (of_Z sval)) col) garr).

(** What one interval adds to the accumulator [loglik]. *)
Definition store_loglik (loglik prob : float64) : float64 :=
  if fgt prob (Fin 0) then fadd loglik (flog prob) else fadd loglik PInf.

(** The body of [for sval in range(nspecies + 1)]. *)
Definition interval_step (c : convention) (garr : ndarray2)
    (loglik : float64) (sval : Z) : result float64 :=
  iarr <- select_interval garr sval ;;
  prob <- interval_prob c iarr ;;
  Ok (store_loglik loglik prob).

(** The body of [for gidx in prange(ntrees)]: the value stored in
    [logliks[gidx]]. *)
Definition genealogy_loglik (c : convention) (nspecies : Z) (garr : ndarray2)
  : result float64 :=
  foldM (interval_step c garr) (range (nspecies + 1)) (Fin 0).

Definition msc_kernel (c : convention) (embedding : ndarray3) : result float64 :=
  x <- getitem3 embedding 0 (-1) 2 ;;
  nspecies <- py_int x ;;
  logliks <- mapM (genealogy_loglik c nspecies) embedding ;;
  Ok (fneg (np_sum logliks)).

Definition _get_msc_loglik_from_embedding_array (embedding : ndarray3)
  : result float64 :=
  msc_kernel ConvA embedding.

Definition _get_msc_loglik_from_embedding (embedding : ndarray3)
  : result float64 :=
  msc_kernel ConvB embedding.

(** [emb[:, :, 3] = emb[:, :, 3] * 2.]: the array a caller hands to the
    2Ne kernel. *)
Definition double_field3 (r : row) : row :=
  match r with
  | x0 :: x1 :: x2 :: x3 :: rest => x0 :: x1 :: x2 :: fmul x3 (Fin 2) :: rest
  | _ => r
  end.

Definition premultiply_field3 (embedding : ndarray3) : ndarray3 :=
  map (map double_field3) embedding.

(** The product of the coalescence factors of rows given by their lineage
    count and length, written as the specification words it: one factor
    [rate * exp(-lambda * dist)] per row, [lambda = rate * n * (n - 1) / 2]. *)
Definition spec_coal_factor (rate : float64) (nd : float64 * float64) : float64 :=
  let n := fst nd in
  let dist := snd nd in
  let pairs := fdiv (fmul n (fsub n (Fin 1))) (Fin 2) in
  let lambda := fmul rate pairs in
  fmul rate (fexp (fmul (fneg lambda) dist)).

Definition spec_coal_product (rate : float64) (rows : list (float64 * float64))
  : float64 :=
  fold_left (fun p nd => fmul p (spec_coal_factor rate nd)) rows (Fin 1).

(** The textbook density [lambda * exp(-lambda * dist)], which the kernels
    do not use. *)
Definition textbook_factor (rate nedges dist : float64) : float64 :=
  let lambda := fmul rate (npairs_of nedges) in
  fmul lambda (fexp (fmul (fneg lambda) dist)).

(** ** The population-size update ([smc/src/likelihood.py]) *)

(** [set(popsizes)]: the distinct values in order of first appearance.
    NaN is equal to nothing, so every NaN is an element of its own. *)
Fixpoint pyset (xs acc : list float64) : list float64 :=
  match xs with
  | [] => acc
  | x :: rest => pyset rest (if existsb (feq x) acc then acc else acc ++ [x])
  end.

(** [emb[:, :, 3] = v] *)
Definition assign_field3 (emb : ndarray3) (v : float64) : result ndarray3 :=
  mapM (mapM (fun r : row => setitem r 3 v)) emb.

(** [mask = emb[:, :, 2] == idx; emb[mask, 3] = popsize], row by row: the
    mask reads field 2 and the assignment writes field 3 of the rows the
    mask selects; the column index 3 is checked on every row. *)
Definition assign_row_where (idx : nat) (popsize : float64) (r : row)
  : result row :=
  x2 <- getitem r 2 ;;
  if feq x2 (of_nat idx) then setitem r 3 popsize
  else (_ <- getitem r 3 ;; Ok r).

Definition assign_field3_where (emb : ndarray3) (idx : nat) (popsize : float64)
  : result ndarray3 :=
  mapM (mapM (assign_row_where idx popsize)) emb.

(** [enumerate(xs)], counting from [start]. *)
Fixpoint enumerate_from {A : Type} (start : nat) (xs : list A) : list (nat * A) :=
  match xs with
  | [] => []
  | x :: rest => (start, x) :: enumerate_from (S start) rest
  end.

(** The array is updated in place; the function returns its new state. *)
Definition _update_neffs (emb : ndarray3) (popsizes : list float64)
  : result ndarray3 :=
  if Nat.eqb (length (pyset popsizes [])) 1 then
    v <- getitem popsizes 0 ;;
    assign_field3 emb v
  else
    foldM (fun e ip => assign_field3_where e (fst ip) (snd ip))
          (enumerate_from 0 popsizes) emb.

(** ** Rate providers and the waiting-distance kernel
       ([smc/src/likelihood.py]) *)

(** [recombination_rate * sarr]; the other arguments of the call are
    swallowed by [*args, **kwargs]. *)
Definition get_recomb_event_lambdas (sarr : list float64)
    (recombination_rate : float64) : list float64 :=
  map (fun s => fmul recombination_rate s) sarr.

(** numpy broadcasting of two one-dimensional arrays. *)
Definition broadcast2 {A B C : Type} (f : A -> B -> C) (xs : list A) (ys : list B)
  : result (list C) :=
  if Nat.eqb (length xs) (length ys) then
    Ok (map (fun xy => f (fst xy) (snd xy)) (combine xs ys))
  else
    match xs, ys with
    | [x], _ => Ok (map (fun y => f x y) ys)
    | _, [y] => Ok (map (fun x => f x y) xs)
    | _, _ => Raise ValueError
    end.

(** [scipy.stats.expon.logpdf(x, scale=scale)] at one point, after scipy's
    [rv_continuous.logpdf] with [loc = 0]: NaN for a scale that is not
    positive or a NaN argument, [-y - log(scale)] with [y = (x - loc) / scale]
    inside the support [0 <= y <= inf], and [-inf] outside. *)
Definition expon_logpdf1 (x scale : float64) : float64 :=
  let cond0 := fgt scale (Fin 0) in
  let y := fdiv (fsub x (Fin 0)) scale in
  let cond1 := fge y (Fin 0) && fge PInf y in
  if negb cond0 || isnan y then NaN
  else if cond0 && cond1 then fsub (fneg y) (flog scale)
  else NInf.

Definition expon_logpdf (scale x : list float64) : result (list float64) :=
  broadcast2 expon_logpdf1 x scale.

(** Lines 107-109: the reduction of rates and observed lengths. *)
Definition waiting_distance_loglik (rates lengths : list float64)
  : result float64 :=
  logliks <- expon_logpdf (map (fun r => fdiv (Fin 1) r) rates) lengths ;;
  Ok (fneg (np_sum logliks)).

(** Python's unchecked [assert]. *)
Definition py_assert (b : bool) : result unit :=
  if b then Ok tt else Raise AssertionError.

Section SMC.

(** The auxiliary arrays of a [TreeEmbedding] are opaque here: they are
    only handed to the rate providers. *)
Variables EncArray BarrArray RarrArray : Type.

Record TreeEmbedding : Type := {
  emb : ndarray3;
  enc : EncArray;
  barr : BarrArray;
  sarr : list float64;
  rarr : RarrArray
}.

(** The call contract of a rate provider:
    [(emb, enc, barr, sarr, rarr, recombination_rate, idxs) -> rates]. *)
Definition rate_provider : Type :=
  ndarray3 -> EncArray -> BarrArray -> list float64 -> RarrArray ->
  float64 -> list Z -> result (list float64).

(** The two providers imported from [ms_smc_tree_prob] and
    [ms_smc_topo_prob], which are not part of these sources. *)
Variable get_tree_changed_lambdas : rate_provider.
Variable get_topo_changed_lambdas : rate_provider.

Definition recomb_provider : rate_provider :=
  fun _ _ _ sarr _ recombination_rate _ =>
    Ok (get_recomb_event_lambdas sarr recombination_rate).

(** Lines 84-90: the choice of the rate function. *)
Definition rate_function (event_type : Z) : rate_provider :=
  if (event_type =? 0)%Z then recomb_provider
  else if (event_type =? 1)%Z then get_tree_changed_lambdas
  else get_topo_changed_lambdas.

(** Lines 92-105: the rates of a call. *)
Definition get_rates (embedding : TreeEmbedding) (recombination_rate : float64)
    (event_type : Z) (idxs : option (list Z)) : result (list float64) :=
  let idxs :=
    match idxs with
    | None => range (Z.of_nat (length (emb embedding)))
    | Some i => i
    end in
  rate_function event_type
    (emb embedding) (enc embedding) (barr embedding) (sarr embedding)
    (rarr embedding) recombination_rate idxs.

Definition get_ms_smc_loglik_from_embedding (embedding : TreeEmbedding)
    (recombination_rate : float64) (lengths : list float64)
    (event_type : Z) (idxs : option (list Z)) : result float64 :=
  rates <- get_rates embedding recombination_rate event_type idxs ;;
  waiting_distance_loglik rates lengths.

(** The wrapper builds the embedding itself; the builder is external. *)
Variables SpeciesTree ToyTree Imap : Type.
Variable TreeEmbedding_new :
  SpeciesTree -> list ToyTree -> Imap -> result TreeEmbedding.

Inductive genealogies_arg : Type :=
| SingleTree (t : ToyTree)
| TreeSeq (ts : list ToyTree).

Definition get_ms_smc_loglik (species_tree : SpeciesTree)
    (genealogies : genealogies_arg) (imap : Imap)
    (recombination_rate : float64) (lengths : list float64)
    (event_type : Z) (idxs : option (list Z)) : result float64 :=
  let genealogies :=
    match genealogies with
    | SingleTree t => [t]
    | TreeSeq ts => ts
    end in
  _ <- py_assert (Nat.eqb (length lengths) (length genealogies)) ;;
  embedding <- TreeEmbedding_new species_tree genealogies imap ;;
  get_ms_smc_loglik_from_embedding embedding recombination_rate lengths
    event_type idxs.

End SMC.

Arguments emb {EncArray BarrArray RarrArray} _.
Arguments enc {EncArray BarrArray RarrArray} _.
Arguments barr {EncArray BarrArray RarrArray} _.
Arguments sarr {EncArray BarrArray RarrArray} _.
Arguments rarr {EncArray BarrArray RarrArray} _.
Arguments SingleTree {ToyTree} t.
Arguments TreeSeq {ToyTree} ts.
Arguments recomb_provider {EncArray BarrArray RarrArray}.
Arguments rate_function {EncArray BarrArray RarrArray} _ _ _.
Arguments get_rates {EncArray BarrArray RarrArray} _ _ _ _ _ _.
Arguments get_ms_smc_loglik_from_embedding {EncArray BarrArray RarrArray}
  _ _ _ _ _ _ _.
Arguments get_ms_smc_loglik {EncArray BarrArray RarrArray} _ _
  {SpeciesTree ToyTree Imap} _ _ _ _ _ _ _ _.

(** The genealogies an argument of [get_ms_smc_loglik] stands for. *)
Definition genealogy_list {ToyTree : Type} (genealogies : genealogies_arg ToyTree)
  : list ToyTree :=
  match genealogies with
  | SingleTree t => [t]
  | TreeSeq ts => ts
  end.

(** ** Predicates of the statements and sample inputs *)

Definition positive_finite (x : float64) : Prop :=
  match x with
  | Fin r => (0 < r)%R
  | _ => False
  end.

(** Every row has a field 3, and it is finite and positive. *)
Definition field3_positive (embedding : ndarray3) : Prop :=
  Forall (Forall (fun r : row =>
                    exists v, nth_error r 3 = Some v /\ positive_finite v))
         embedding.

(** One genealogy of two lineages in one population: a coalescence row of
    length [dist], then the unbounded root-ward row. *)
Definition one_coalescence (ne dist : float64) : ndarray2 :=
  [ [Fin 0; dist; Fin 0; ne; Fin 2; dist];
    [dist; PInf; Fin 0; ne; Fin 1; PInf] ].


Definition sample_embedding : ndarray3 :=
  [ one_coalescence (Fin 100) (Fin 0); one_coalescence (Fin 100) (Fin 0) ].

(** Row [r] has lineage count [fst nd] in field 4 and length [snd nd] in
    field 5. *)
Definition has_fields45 (r : row) (nd : float64 * float64) : Prop :=
  nth_error r 4 = Some (fst nd) /\ nth_error r 5 = Some (snd nd).

(** A value of the accumulator [loglik]: finite or plus infinity. *)
Definition finite_or_pinf (x : float64) : Prop :=
  match x with
  | Fin _ | PInf => True
  | _ => False
  end.

(** Two genealogies scored at the population size [-1], as a sweep over
    test values can propose it. *)
Definition degenerate_embedding : ndarray3 :=
  [ one_coalescence (Fin (-1)) (Fin 0); one_coalescence (Fin (-1)) (Fin 0) ].

(** The sum of [log(rate) - rate * length] over the genealogies, as the
    specification words it. *)
Fixpoint spec_waiting_sum (rs ls : list R) : R :=
  match rs, ls with
  | r :: rs', l :: ls' => (ln r - r * l) + spec_waiting_sum rs' ls'
  | _, _ => 0
  end.

(** An embedding of three genealogies whose auxiliary arrays are trivial,
    with the total branch lengths 10, 20 and 30. *)
Definition sample_tree_embedding : TreeEmbedding unit unit unit :=
  {| emb := [ one_coalescence (Fin 100) (Fin 0);
              one_coalescence (Fin 100) (Fin 0);
              one_coalescence (Fin 100) (Fin 0) ];
     enc := tt;
     barr := tt;
     sarr := [Fin 10; Fin 20; Fin 30];
     rarr := tt |}.

(** A provider that keeps the contract, one rate [v] per index, and one
    that raises. *)
Definition constant_provider (v : float64) : rate_provider unit unit unit :=
  fun _ _ _ _ _ _ idxs => Ok (map (fun _ : Z => v) idxs).

Definition raising_provider : rate_provider unit unit unit :=
  fun _ _ _ _ _ _ _ => Raise ExternalError.

(** Every row of the array has a field 3. *)
Definition wide_enough (emb : ndarray3) : Prop :=
  Forall (Forall (fun r : row => 4 <= length r)) emb.

(** The array has at least one row. *)
Definition has_row (emb : ndarray3) : Prop :=
  exists (garr : ndarray2) (r : row), In garr emb /\ In r garr.

(** The vector is not empty and all its entries are equal. *)
Definition all_equal (popsizes : list float64) : Prop :=
  exists v rest, popsizes = v :: rest /\ Forall (fun x => feq x v = true) rest.

(** No index of the vector equals the field-2 value [x2]. *)
Definition no_branch (popsizes : list float64) (x2 : float64) : Prop :=
  forall i, i < length popsizes -> feq x2 (of_nat i) = false.

(** The loop of the per-branch mode, on a single row. *)
Definition update_row_per_branch (start : nat) (popsizes : list float64) (r : row)
  : result row :=
  foldM (fun r' ip => assign_row_where (fst ip) (snd ip) r')
        (enumerate_from start popsizes) r.

(** ** The callers of the kernels ([msc/src/likelihood.py]) *)

Section MSC_wrapper.

(** Species trees, gene trees, newick strings, sample maps and the
    encoding array are opaque; [toytree.mtree(...).treelist] and
    [get_genealogy_embedding_arrays] are external. *)
Variables SpeciesTree ToyTree Newick Imap EncArray : Type.

(** An element of [gene_trees]: a tree object or a string. *)
Inductive tree_item : Type :=
| ATree (t : ToyTree)
| ANewick (s : Newick).

(** The argument [gene_trees]: one tree or string, or a sequence. *)
Inductive gene_trees_arg : Type :=
| OneItem (x : tree_item)
| ItemSeq (xs : list tree_item).

Variable mtree_treelist : list tree_item -> result (list ToyTree).
Variable get_genealogy_embedding_arrays :
  SpeciesTree -> list tree_item -> Imap -> result (ndarray3 * EncArray).

Definition get_msc_loglik (species_tree : SpeciesTree)
    (gene_trees : gene_trees_arg) (imap : Imap) : result float64 :=
  let gene_trees :=
    match gene_trees with
    | OneItem x => [x]
    | ItemSeq xs => xs
    end in
  first <- getitem gene_trees 0 ;;
  gene_trees <-
    match first with
    | ATree _ => Ok gene_trees
    | ANewick _ =>
        treelist <- mtree_treelist gene_trees ;;
        Ok (map ATree treelist)
    end ;;
  arrays <- get_genealogy_embedding_arrays species_tree gene_trees imap ;;
  _get_msc_loglik_from_embedding_array (fst arrays).

End MSC_wrapper.

Arguments ATree {ToyTree Newick} t.
Arguments ANewick {ToyTree Newick} s.
Arguments OneItem {ToyTree Newick} x.
Arguments ItemSeq {ToyTree Newick} xs.
Arguments get_msc_loglik {SpeciesTree ToyTree Newick Imap EncArray} _ _ _ _ _.

(** The loops of [test_kingman] (lines 194-197) and [test_msc] (lines
    234-238): each test value is written to field 3 of the whole array, in
    the unit [unit_of] the kernel expects, and the kernel is run; the state
    is the array and the list [logliks]. *)
Definition sweep_step (unit_of : float64 -> float64)
    (kernel : ndarray3 -> result float64)
    (st : ndarray3 * list float64) (val : float64)
  : result (ndarray3 * list float64) :=
  emb' <- assign_field3 (fst st) (unit_of val) ;;
  loglik <- kernel emb' ;;
  Ok (emb', snd st ++ [loglik]).

Definition test_kingman_sweep (emb : ndarray3) (test_values : list float64)
  : result (ndarray3 * list float64) :=
  foldM (sweep_step (fun val => val) _get_msc_loglik_from_embedding_array)
        test_values (emb, []).

Definition test_msc_sweep (emb : ndarray3) (test_values : list float64)
  : result (ndarray3 * list float64) :=
  foldM (sweep_step (fun val => fmul val (Fin 2)) _get_msc_loglik_from_embedding)
        test_values (emb, []).

(** The list of log-likelihoods of a sweep. *)
Definition logliks_of (r : result (ndarray3 * list float64))
  : result (list float64) :=
  st <- r ;; Ok (snd st).

(** ** Further predicates of the statements *)

(** The real coalescent rate of a convention at the population size [ne]. *)
Definition rate_R (c : convention) (ne : R) : R :=
  match c with
  | ConvA => 1 / (2 * ne)
  | ConvB => 1 / ne
  end.

Definition pairs_R (n : R) : R := n * (n + - 1) / 2.

(** [sum of rate * pairs(n) * dist] over rows given as [(n, dist)]. *)
Definition decay_R (rate : R) (rows : list (R * R)) : R :=
  fold_right (fun nd acc => rate * pairs_R (fst nd) * snd nd + acc)%R 0%R rows.

Definition lift_fields (nd : R * R) : float64 * float64 :=
  (Fin (fst nd), Fin (snd nd)).

(** Two rows of the same length that differ at most in field 3. *)
Definition same_but_field3 (r r' : row) : Prop :=
  length r' = length r /\ forall j, j <> 3 -> nth_error r' j = nth_error r j.

(** The general path of [_update_neffs], taken whatever the vector is. *)
Definition per_branch_update (emb : ndarray3) (popsizes : list float64)
  : result ndarray3 :=
  foldM (fun e ip => assign_field3_where e (fst ip) (snd ip))
        (enumerate_from 0 popsizes) emb.

(** Field 2 of every row is one of the indices of the vector. *)
Definition branches_covered (emb : ndarray3) (popsizes : list float64) : Prop :=
  Forall (Forall (fun r : row =>
                    exists x2 i, nth_error r 2 = Some x2 /\
                                 i < length popsizes /\
                                 feq x2 (of_nat i) = true))
         emb.


(** A log-density that is finite or minus infinity. *)
Definition finite_or_ninf (x : float64) : Prop :=
  match x with
  | Fin _ | NInf => True
  | _ => False
  end.

(** A pair of a rate and a length of probability zero: a zero rate, or a
    negative length. *)
Definition impossible_pair (rl : R * R) : Prop :=
  fst rl = 0%R \/ (snd rl < 0)%R.

(** * Properties *)

(** ** The error monad and indexing *)

Lemma mapM_map {A B C : Type} (g : A -> B) (f : B -> result C) (xs : list A) :
  mapM f (map g xs) = mapM (fun x => f (g x)) xs.
Proof.
  induction xs as [|x xs IH]; simpl; [reflexivity|].
  now rewrite IH.
Qed.

Lemma mapM_ext {A B : Type} (f g : A -> result B) (xs : list A) :
  (forall x, f x = g x) -> mapM f xs = mapM g xs.
Proof.
  intros Hfg; induction xs as [|x xs IH]; simpl; [reflexivity|].
  now rewrite Hfg, IH.
Qed.

Lemma foldM_ext {A S : Type} (f g : S -> A -> result S) (xs : list A) (acc : S) :
  (forall s x, f s x = g s x) -> foldM f xs acc = foldM g xs acc.
Proof.
  intros Hfg; revert acc; induction xs as [|x xs IH]; intros acc; simpl;
    [reflexivity|].
  rewrite Hfg; destruct (g acc x); simpl; auto.
Qed.

Lemma foldM_app {A S : Type} (f : S -> A -> result S) (xs ys : list A) (acc : S) :
  foldM f (xs ++ ys) acc = (acc' <- foldM f xs acc ;; foldM f ys acc').
Proof.
  revert acc; induction xs as [|x xs IH]; intros acc; simpl; [reflexivity|].
  destruct (f acc x); simpl; auto.
Qed.

Lemma mapM_length {A B : Type} (f : A -> result B) (xs : list A) (ys : list B) :
  mapM f xs = Ok ys -> length ys = length xs.
Proof.
  revert ys; induction xs as [|x xs IH]; intros ys; simpl.
  - intros H; inversion H; reflexivity.
  - destruct (f x); simpl; [|discriminate].
    destruct (mapM f xs) eqn:E; simpl; [|discriminate].
    intros H; inversion H; simpl; f_equal; auto.
Qed.

Lemma getitem_nonneg {A : Type} (a : list A) (i : Z) :
  (0 <= i)%Z ->
  getitem a i =
  match nth_error a (Z.to_nat i) with
  | Some x => Ok x
  | None => Raise IndexError
  end.
Proof.
  intros Hi; unfold getitem.
  destruct (Z.ltb_spec i 0); [lia|].
  destruct (Z.leb_spec 0 i); [|lia]; simpl.
  destruct (Z.ltb_spec i (Z.of_nat (length a))); [reflexivity|].
  assert (Hn : nth_error a (Z.to_nat i) = None)
    by (apply nth_error_None; lia).
  now rewrite Hn.
Qed.

Lemma getitem_nat {A : Type} (a : list A) (n : nat) :
  getitem a (Z.of_nat n) =
  match nth_error a n with
  | Some x => Ok x
  | None => Raise IndexError
  end.
Proof.
  rewrite getitem_nonneg by lia; now rewrite Nat2Z.id.
Qed.

Lemma getitem_map {A B : Type} (f : A -> B) (a : list A) (i : Z) :
  getitem (map f a) i = (x <- getitem a i ;; Ok (f x)).
Proof.
  unfold getitem; rewrite length_map, nth_error_map.
  destruct ((0 <=? _) && _)%Z; [|reflexivity].
  destruct (nth_error a _); reflexivity.
Qed.

Lemma getitem_last {A : Type} (xs : list A) (x : A) :
  getitem (xs ++ [x]) (-1) = Ok x.
Proof.
  unfold getitem; rewrite length_app; simpl length.
  replace ((-1 <? 0)%Z) with true by reflexivity.
  replace (-1 + Z.of_nat (length xs + 1))%Z with (Z.of_nat (length xs)) by lia.
  destruct (Z.leb_spec 0 (Z.of_nat (length xs))); [|lia].
  destruct (Z.ltb_spec (Z.of_nat (length xs)) (Z.of_nat (length xs + 1)));
    [|lia]; simpl.
  rewrite Nat2Z.id, nth_error_app2, Nat.sub_diag by lia; reflexivity.
Qed.

(** ** Arithmetic of the float model *)

Lemma scale_inf_pos (a : R) (i : float64) : (0 < a)%R -> scale_inf a i = i.
Proof. intros H; unfold scale_inf; destruct (Rlt_dec 0 a); [reflexivity|lra]. Qed.

Lemma fmul_comm (x y : float64) : fmul x y = fmul y x.
Proof.
  destruct x, y; simpl; try reflexivity.
  now rewrite Rmult_comm.
Qed.

(** ** Convention A against convention B *)

Lemma nth_error_double_other (r : row) (n : nat) :
  n <> 3 -> nth_error (double_field3 r) n = nth_error r n.
Proof.
  intros Hn.
  destruct r as [|x0 [|x1 [|x2 [|x3 rest]]]]; try reflexivity.
  destruct n as [|[|[|[|n]]]]; try reflexivity; congruence.
Qed.

Lemma getitem_double_other (r : row) (j : Z) :
  (0 <= j)%Z -> j <> 3%Z -> getitem (double_field3 r) j = getitem r j.
Proof.
  intros Hj Hne; rewrite !getitem_nonneg by assumption.
  rewrite nth_error_double_other; [reflexivity|lia].
Qed.

Lemma getitem_double_3 (r : row) :
  getitem (double_field3 r) 3 = (x <- getitem r 3 ;; Ok (fmul x (Fin 2))).
Proof.
  rewrite !getitem_nonneg by lia.
  destruct r as [|x0 [|x1 [|x2 [|x3 rest]]]]; reflexivity.
Qed.

Lemma getitem2_double_other (a : ndarray2) (i j : Z) :
  (0 <= j)%Z -> j <> 3%Z ->
  getitem2 (map double_field3 a) i j = getitem2 a i j.
Proof.
  intros Hj Hne; unfold getitem2; rewrite getitem_map.
  destruct (getitem a i); simpl; [|reflexivity].
  now apply getitem_double_other.
Qed.

Lemma getitem2_double_3 (a : ndarray2) (i : Z) :
  getitem2 (map double_field3 a) i 3 =
  (x <- getitem2 a i 3 ;; Ok (fmul x (Fin 2))).
Proof.
  unfold getitem2; rewrite getitem_map.
  destruct (getitem a i); simpl; [|reflexivity].
  apply getitem_double_3.
Qed.

Lemma coal_rate_double (ne : float64) :
  coal_rate ConvB (fmul ne (Fin 2)) = coal_rate ConvA ne.
Proof. simpl; now rewrite (fmul_comm ne). Qed.

Lemma coal_loop_double (rate : float64) (a : ndarray2) (ridxs : list nat)
    (prob : float64) :
  coal_loop rate (map double_field3 a) ridxs prob = coal_loop rate a ridxs prob.
Proof.
  revert prob; induction ridxs as [|k ks IH]; intros prob; simpl;
    [reflexivity|].
  rewrite !getitem2_double_other by lia.
  destruct (getitem2 a (Z.of_nat k) 4); simpl; [|reflexivity].
  destruct (getitem2 a (Z.of_nat k) 5); simpl; [|reflexivity].
  apply IH.
Qed.

Lemma last_step_double (rate : float64) (a : ndarray2) (prob : float64) :
  last_step rate (map double_field3 a) prob = last_step rate a prob.
Proof.
  unfold last_step; now rewrite !getitem2_double_other by lia.
Qed.

Lemma interval_prob_double (a : ndarray2) :
  interval_prob ConvB (map double_field3 a) = interval_prob ConvA a.
Proof.
  unfold interval_prob.
  rewrite getitem2_double_3, length_map.
  destruct (getitem2 a 0 3) as [ne|e]; cbn [bind]; [|reflexivity].
  rewrite coal_rate_double.
  destruct (coal_rate ConvA ne) as [rate|e]; cbn [bind]; [|reflexivity].
  rewrite coal_loop_double.
  destruct (coal_loop rate a _ _); cbn [bind]; [|reflexivity].
  apply last_step_double.
Qed.

Lemma compress_map {A B : Type} (f : A -> B) (mask : list bool) (a : list A) :
  compress mask (map f a) = map f (compress mask a).
Proof.
  revert a; induction mask as [|m mask IH]; intros [|x a]; simpl;
    try reflexivity.
  destruct m; simpl; now rewrite IH.
Qed.

Lemma column_double (garr : ndarray2) :
  column (map double_field3 garr) 2 = column garr 2.
Proof.
  unfold column; rewrite mapM_map.
  apply mapM_ext; intros r; apply getitem_double_other; lia.
Qed.

Lemma select_interval_double (garr : ndarray2) (sval : Z) :
  select_interval (map double_field3 garr) sval =
  (iarr <- select_interval garr sval ;; Ok (map double_field3 iarr)).
Proof.
  unfold select_interval; rewrite column_double.
  destruct (column garr 2); simpl; [|reflexivity].
  now rewrite compress_map.
Qed.

Lemma genealogy_loglik_double (nspecies : Z) (garr : ndarray2) :
  genealogy_loglik ConvB nspecies (map double_field3 garr) =
  genealogy_loglik ConvA nspecies garr.
Proof.
  unfold genealogy_loglik; apply foldM_ext; intros loglik sval.
  unfold interval_step; rewrite select_interval_double.
  destruct (select_interval garr sval) as [iarr|e]; simpl; [|reflexivity].
  now rewrite interval_prob_double.
Qed.

Lemma msc_kernel_premultiplied (embedding : ndarray3) :
  msc_kernel ConvB (premultiply_field3 embedding) = msc_kernel ConvA embedding.
Proof.
  unfold msc_kernel, premultiply_field3, getitem3.
  rewrite getitem_map.
  unfold ndarray3, ndarray2, row in *.
  destruct (getitem embedding 0) as [g|e]; cbn [bind]; [|reflexivity].
  rewrite getitem2_double_other by lia.
  destruct (getitem2 g (-1) 2) as [x|e]; cbn [bind]; [|reflexivity].
  destruct (py_int x) as [nspecies|e]; cbn [bind]; [|reflexivity].
  rewrite mapM_map.
  rewrite (mapM_ext
             (fun garr => genealogy_loglik ConvB nspecies (map double_field3 garr))
             (genealogy_loglik ConvA nspecies))
    by (intros garr; apply genealogy_loglik_double).
  reflexivity.
Qed.

(** ** The loop over the coalescence rows *)

Lemma coal_loop_app (rate : float64) (a : ndarray2) (xs ys : list nat)
    (prob : float64) :
  coal_loop rate a (xs ++ ys) prob =
  (p <- coal_loop rate a xs prob ;; coal_loop rate a ys p).
Proof.
  revert prob; induction xs as [|k ks IH]; intros prob; simpl; [reflexivity|].
  destruct (getitem2 a (Z.of_nat k) 4); simpl; [|reflexivity].
  destruct (getitem2 a (Z.of_nat k) 5); simpl; [|reflexivity].
  apply IH.
Qed.

Lemma getitem2_middle (pre post : ndarray2) (r : row) (j : nat) :
  getitem2 (pre ++ r :: post) (Z.of_nat (length pre)) (Z.of_nat j) =
  match nth_error r j with
  | Some x => Ok x
  | None => Raise IndexError
  end.
Proof.
  unfold getitem2; rewrite getitem_nat.
  rewrite nth_error_app2, Nat.sub_diag by lia; simpl.
  apply getitem_nat.
Qed.

Lemma coal_loop_rows (rate : float64) (body : ndarray2)
    (nds : list (float64 * float64)) :
  Forall2 has_fields45 body nds ->
  forall (pre post : ndarray2) (prob : float64),
    coal_loop rate (pre ++ body ++ post) (seq (length pre) (length body)) prob =
    Ok (fold_left (fun p nd => fmul p (spec_coal_factor rate nd)) nds prob).
Proof.
  induction 1 as [|r nd body nds [H4 H5] _ IH]; intros pre post prob; simpl;
    [reflexivity|].
  change 4%Z with (Z.of_nat 4); change 5%Z with (Z.of_nat 5).
  rewrite !getitem2_middle, H4, H5; cbn [bind].
  specialize (IH (pre ++ [r]) post).
  rewrite <- app_assoc, length_app in IH; simpl in IH.
  rewrite Nat.add_1_r in IH.
  rewrite IH; reflexivity.
Qed.

Lemma interval_prob_rows (c : convention) (body : ndarray2) (last : row)
    (nds : list (float64 * float64)) (ne rate : float64) :
  getitem2 (body ++ [last]) 0 3 = Ok ne ->
  coal_rate c ne = Ok rate ->
  Forall2 has_fields45 body nds ->
  interval_prob c (body ++ [last]) =
  last_step rate (body ++ [last]) (spec_coal_product rate nds).
Proof.
  intros Hne Hrate Hrows; unfold interval_prob.
  rewrite Hne; cbn [bind]; rewrite Hrate; cbn [bind].
  rewrite length_app; simpl length.
  replace (length body + 1 - 1) with (length body) by lia.
  pose proof (coal_loop_rows rate body nds Hrows [] [last] (Fin 1)) as Hloop.
  simpl in Hloop; rewrite Hloop; reflexivity.
Qed.

Lemma fdiv_two (a : R) : fdiv (Fin a) (Fin 2) = Fin (a / 2).
Proof. simpl; destruct (Req_dec_T 2 0); [lra|reflexivity]. Qed.

Lemma npairs_of_Fin (n : R) : npairs_of (Fin n) = Fin (n * (n + - 1) / 2).
Proof. unfold npairs_of; simpl fmul; apply fdiv_two. Qed.

(** C1.  On an embedding array whose field-3 entries are all finite and
    positive, the kernel that reads field 3 as Ne returns what the kernel
    that reads it as 2Ne returns on the same array with field 3 multiplied
    by 2: the same value, or the same exception.  ([msc_kernel_premultiplied]
    has the equality for every array.) *)
Theorem msc_convention_equivalence (embedding : ndarray3) :
  field3_positive embedding ->
  _get_msc_loglik_from_embedding_array embedding =
  _get_msc_loglik_from_embedding (premultiply_field3 embedding).
Proof.
  intros _.
  unfold _get_msc_loglik_from_embedding_array, _get_msc_loglik_from_embedding.
  symmetry; apply msc_kernel_premultiplied.
Qed.

Lemma msc_convention_equivalence_witness :
  field3_positive sample_embedding /\
  _get_msc_loglik_from_embedding_array sample_embedding =
  _get_msc_loglik_from_embedding (premultiply_field3 sample_embedding).
Proof.
  assert (H : field3_positive sample_embedding).
  { unfold field3_positive, sample_embedding, one_coalescence.
    repeat constructor; exists (Fin 100); (split; [reflexivity|simpl; lra]). }
  split; [exact H|exact (msc_convention_equivalence sample_embedding H)].
Defined.

(** C2.  In both kernels ([c] ranges over the two conventions) and for
    every group [iarr] of rows of one species interval of one genealogy,
    with [rate] the coalescent rate of the interval: iteration [k] of the
    loop, for every row [k] but the last, multiplies the running
    probability by exactly [rate * exp(-lambda * dist)], where
    [lambda = rate * n * (n - 1) / 2], [n] is field 4 and [dist] field 5 of
    the row; so the probability handed to the last row is the product of
    these factors; and the factor is not the density
    [lambda * exp(-lambda * dist)] unless [n * (n - 1) / 2 = 1]. *)
Theorem msc_coalescence_rows (c : convention) (iarr : ndarray2)
    (ne rate : float64) :
  getitem2 iarr 0 3 = Ok ne ->
  coal_rate c ne = Ok rate ->
  (forall (k : nat) (nedges dist prob : float64),
      S k < length iarr ->
      getitem2 iarr (Z.of_nat k) 4 = Ok nedges ->
      getitem2 iarr (Z.of_nat k) 5 = Ok dist ->
      coal_loop rate iarr (seq 0 k) (Fin 1) = Ok prob ->
      coal_loop rate iarr (seq 0 (S k)) (Fin 1) =
      Ok (fmul prob
            (fmul rate
               (fexp (fmul (fneg (fmul rate (npairs_of nedges))) dist)))))
  /\ (forall (body : ndarray2) (last : row) (nds : list (float64 * float64)),
         iarr = body ++ [last] ->
         Forall2 has_fields45 body nds ->
         interval_prob c iarr =
         last_step rate iarr (spec_coal_product rate nds))
  /\ (forall r n d : R,
         rate = Fin r -> r <> 0%R -> (n * (n + - 1) / 2 <> 1)%R ->
         coal_factor rate (Fin n) (Fin d) <>
         textbook_factor rate (Fin n) (Fin d)).
Proof.
  intros Hne Hrate; split; [|split].
  - intros k nedges dist prob _ H4 H5 Hprob.
    rewrite seq_S, coal_loop_app, Hprob; simpl.
    rewrite H4, H5; reflexivity.
  - intros body last nds -> Hrows.
    now apply interval_prob_rows with (ne := ne).
  - intros r n d -> Hr Hn.
    unfold coal_factor, textbook_factor; rewrite npairs_of_Fin; simpl.
    intros Heq; injection Heq as Heq.
    pose proof (exp_pos (- (r * (n * (n + - 1) / 2)) * d)) as Hexp.
    apply Hn.
    apply Rmult_eq_reg_r in Heq; [|lra].
    apply (Rmult_eq_reg_l r); [lra|assumption].
Qed.

Lemma msc_coalescence_rows_witness :
  getitem2 (one_coalescence (Fin 100) (Fin 0)) 0 3 = Ok (Fin 100) /\
  coal_rate ConvA (Fin 100) = Ok (Fin (1 / (2 * 100))) /\
  coal_loop (Fin (1 / (2 * 100))) (one_coalescence (Fin 100) (Fin 0))
    (seq 0 1) (Fin 1) =
  Ok (fmul (Fin 1)
        (fmul (Fin (1 / (2 * 100)))
           (fexp (fmul (fneg (fmul (Fin (1 / (2 * 100))) (npairs_of (Fin 2))))
                    (Fin 0))))).
Proof.
  assert (H3 : getitem2 (one_coalescence (Fin 100) (Fin 0)) 0 3 = Ok (Fin 100))
    by reflexivity.
  assert (Hr : coal_rate ConvA (Fin 100) = Ok (Fin (1 / (2 * 100)))).
  { unfold coal_rate, truediv, fmul, fdiv.
    destruct (Req_dec_T (2 * 100) 0); [lra|reflexivity]. }
  split; [exact H3|split; [exact Hr|]].
  refine (proj1 (msc_coalescence_rows ConvA _ _ _ H3 Hr)
            0%nat (Fin 2) (Fin 0) (Fin 1) _ _ _ _).
  - simpl; lia.
  - reflexivity.
  - reflexivity.
  - reflexivity.
Defined.



(** ** Intervals of probability zero or less *)



Lemma fadd_pinf_r (x : float64) : finite_or_pinf x -> fadd x PInf = PInf.
Proof. destruct x; simpl; tauto. Qed.




Lemma store_loglik_degenerate (loglik prob : float64) :
  finite_or_pinf loglik -> fgt prob (Fin 0) = false ->
  store_loglik loglik prob = PInf.
Proof.
  intros Hl Hp; unfold store_loglik; rewrite Hp; now apply fadd_pinf_r.
Qed.






(** ** Evaluation on genealogies of one coalescence *)

Lemma Ztrunc_IZR (z : Z) : Ztrunc (IZR z) = z.
Proof.
  unfold Ztrunc; destruct (Rle_dec 0 (IZR z)); [apply ZfloorZ|].
  unfold Zceil; rewrite <- opp_IZR, ZfloorZ; lia.
Qed.

Lemma select_one_coalescence (ne dist : float64) :
  select_interval (one_coalescence ne dist) 0 = Ok (one_coalescence ne dist).
Proof.
  unfold select_interval.
  replace (column (one_coalescence ne dist) 2) with (Ok [Fin 0; Fin 0])
    by reflexivity.
  cbn [bind map]; unfold feq, of_Z.
  destruct (Req_dec_T 0 0); [reflexivity|contradiction].
Qed.

Lemma interval_prob_one_coalescence (c : convention) (ne dist rate : float64) :
  coal_rate c ne = Ok rate ->
  interval_prob c (one_coalescence ne dist) =
  Ok (fmul (Fin 1) (coal_factor rate (Fin 2) dist)).
Proof.
  intros Hrate; unfold interval_prob.
  replace (getitem2 (one_coalescence ne dist) 0 3) with (Ok ne) by reflexivity.
  cbn [bind]; rewrite Hrate; reflexivity.
Qed.

Lemma genealogy_loglik_one_coalescence (c : convention)
    (ne dist rate : float64) :
  coal_rate c ne = Ok rate ->
  genealogy_loglik c 0 (one_coalescence ne dist) =
  Ok (store_loglik (Fin 0) (fmul (Fin 1) (coal_factor rate (Fin 2) dist))).
Proof.
  intros Hrate; unfold genealogy_loglik.
  change (range (0 + 1)) with [0%Z]; cbn [foldM]; unfold interval_step.
  rewrite select_one_coalescence; cbn [bind].
  rewrite (interval_prob_one_coalescence c ne dist rate Hrate); reflexivity.
Qed.

Lemma msc_kernel_one_coalescence (c : convention) (ne dist rate : float64) :
  coal_rate c ne = Ok rate ->
  msc_kernel c [one_coalescence ne dist; one_coalescence ne dist] =
  Ok (fneg
        (np_sum
           [store_loglik (Fin 0) (fmul (Fin 1) (coal_factor rate (Fin 2) dist));
            store_loglik (Fin 0) (fmul (Fin 1) (coal_factor rate (Fin 2) dist))])).
Proof.
  intros Hrate; unfold msc_kernel.
  replace (getitem3 [one_coalescence ne dist; one_coalescence ne dist] 0 (-1) 2)
    with (Ok (Fin 0)) by reflexivity.
  cbn [bind py_int]; rewrite Ztrunc_IZR; cbn [mapM].
  rewrite (genealogy_loglik_one_coalescence c ne dist rate Hrate); reflexivity.
Qed.

Lemma coal_factor_negative_rate (r : R) :
  (r < 0)%R ->
  fgt (fmul (Fin 1) (coal_factor (Fin r) (Fin 2) (Fin 0))) (Fin 0) = false.
Proof.
  intros Hr; unfold coal_factor; rewrite npairs_of_Fin; simpl.
  pose proof (exp_pos (- (r * (2 * (2 + - 1) / 2)) * 0)) as Hexp.
  destruct (Rlt_dec 0 _) as [Hlt|]; [|reflexivity].
  exfalso; nra.
Qed.

Lemma coal_rate_minus_one (c : convention) :
  exists r : R, (r < 0)%R /\ coal_rate c (Fin (-1)) = Ok (Fin r).
Proof.
  destruct c; unfold coal_rate, truediv, fmul, fdiv.
  - exists (1 / (2 * -1))%R; split; [lra|].
    destruct (Req_dec_T (2 * -1) 0); [lra|reflexivity].
  - exists (1 / -1)%R; split; [lra|].
    destruct (Req_dec_T (-1) 0); [lra|reflexivity].
Qed.

(** C4 (evaluation).  At the population size [-1] the probability of the
    one interval of each genealogy is negative; neither kernel raises, and
    both return minus infinity, where the claim has plus infinity. *)
Theorem msc_degenerate_returns_minus_infinity :
  (forall c : convention,
      exists prob : float64,
        interval_prob c (one_coalescence (Fin (-1)) (Fin 0)) = Ok prob /\
        fgt prob (Fin 0) = false /\
        store_loglik (Fin 0) prob = PInf)
  /\ _get_msc_loglik_from_embedding_array degenerate_embedding = Ok NInf
  /\ _get_msc_loglik_from_embedding degenerate_embedding = Ok NInf.
Proof.
  assert (Hk : forall c, msc_kernel c degenerate_embedding = Ok NInf).
  { intros c; destruct (coal_rate_minus_one c) as [r [Hr Hrate]].
    unfold degenerate_embedding.
    rewrite (msc_kernel_one_coalescence c _ (Fin 0) _ Hrate).
    rewrite (store_loglik_degenerate (Fin 0) _ I (coal_factor_negative_rate r Hr)).
    reflexivity. }
  split; [|split; apply Hk].
  intros c; destruct (coal_rate_minus_one c) as [r [Hr Hrate]].
  eexists; split; [apply (interval_prob_one_coalescence c _ (Fin 0) _ Hrate)|].
  split; [now apply coal_factor_negative_rate|].
  apply store_loglik_degenerate; [exact I|now apply coal_factor_negative_rate].
Qed.

(** ** The waiting-distance reduction *)

Lemma fdiv_Fin (a b : R) : b <> 0%R -> fdiv (Fin a) (Fin b) = Fin (a / b).
Proof. intros Hb; simpl; destruct (Req_dec_T b 0); [contradiction|reflexivity]. Qed.

Lemma expon_logpdf1_positive (l r : R) :
  (0 < r)%R -> (0 <= l)%R ->
  expon_logpdf1 (Fin l) (fdiv (Fin 1) (Fin r)) = Fin (ln r - r * l).
Proof.
  intros Hr Hl.
  assert (Hs : (0 < 1 / r)%R) by (apply Rdiv_lt_0_compat; lra).
  assert (Hy : ((l + - 0) / (1 / r) = l * r)%R) by (field; lra).
  rewrite fdiv_Fin by lra.
  unfold expon_logpdf1; cbn [fsub fneg fadd].
  rewrite fdiv_Fin, Hy by lra.
  cbn [fgt fge isnan flog fneg fsub fadd].
  destruct (Rlt_dec 0 (1 / r)) as [_|]; [|contradiction].
  destruct (Rle_dec 0 (l * r)) as [_|Hn]; [|exfalso; apply Hn; nra].
  cbn [negb orb andb fadd fneg]; f_equal.
  unfold Rdiv at 1; rewrite Rmult_1_l, ln_Rinv by assumption; lra.
Qed.

Lemma logpdf_equal_lengths (rs ls : list R) :
  length rs = length ls ->
  Forall (fun r => 0 < r)%R rs ->
  Forall (fun l => 0 <= l)%R ls ->
  expon_logpdf (map (fun r => fdiv (Fin 1) r) (map Fin rs)) (map Fin ls) =
  Ok (map Fin (map (fun rl => ln (fst rl) - fst rl * snd rl)%R (combine rs ls))).
Proof.
  intros Hlen Hrs Hls; unfold expon_logpdf, broadcast2.
  rewrite !length_map, <- Hlen, Nat.eqb_refl; f_equal.
  revert ls Hlen Hls; induction Hrs as [|r rs Hr _ IH]; intros [|l ls] Hlen Hls;
    try discriminate; [reflexivity|].
  inversion Hls; subst; cbn [map combine fst snd].
  rewrite expon_logpdf1_positive by assumption.
  f_equal; apply IH; [now injection Hlen|assumption].
Qed.

Lemma fold_left_fadd_Fin (xs : list R) (a : R) :
  fold_left fadd (map Fin xs) (Fin a) = Fin (a + fold_right Rplus 0%R xs).
Proof.
  revert a; induction xs as [|x xs IH]; intros a; simpl.
  - f_equal; lra.
  - rewrite IH; f_equal; lra.
Qed.

Lemma spec_waiting_sum_combine (rs ls : list R) :
  fold_right Rplus 0%R
    (map (fun rl => ln (fst rl) - fst rl * snd rl)%R (combine rs ls)) =
  spec_waiting_sum rs ls.
Proof.
  revert ls; induction rs as [|r rs IH]; intros [|l ls]; simpl;
    try reflexivity.
  now rewrite IH.
Qed.

Lemma waiting_distance_loglik_positive (rs ls : list R) :
  length rs = length ls ->
  Forall (fun r => 0 < r)%R rs ->
  Forall (fun l => 0 <= l)%R ls ->
  waiting_distance_loglik (map Fin rs) (map Fin ls) =
  Ok (Fin (- spec_waiting_sum rs ls)).
Proof.
  intros Hlen Hrs Hls; unfold waiting_distance_loglik.
  rewrite logpdf_equal_lengths by assumption; cbn [bind].
  unfold np_sum; rewrite fold_left_fadd_Fin, spec_waiting_sum_combine.
  simpl; do 2 f_equal; lra.
Qed.

Lemma spec_waiting_sum_repeat (r l : R) (n : nat) :
  spec_waiting_sum (repeat r n) (repeat l n) = (INR n * (ln r - r * l))%R.
Proof.
  induction n as [|n IH]; [simpl; lra|].
  cbn [repeat spec_waiting_sum]; rewrite IH, S_INR; lra.
Qed.

(** ** The waiting-distance kernel and its dispatch *)

Section SMC_properties.

Variables EncArray BarrArray RarrArray : Type.
Variables tree_lambdas topo_lambdas : rate_provider EncArray BarrArray RarrArray.
Variables SpeciesTree ToyTree Imap : Type.
Variable TreeEmbedding_new :
  SpeciesTree -> list ToyTree -> Imap ->
  result (TreeEmbedding EncArray BarrArray RarrArray).

Lemma get_rates_recomb (embedding : TreeEmbedding EncArray BarrArray RarrArray)
    (recombination_rate : float64) (idxs : option (list Z)) :
  get_rates tree_lambdas topo_lambdas embedding recombination_rate 0%Z idxs =
  Ok (map (fun s => fmul recombination_rate s) (sarr embedding)).
Proof. reflexivity. Qed.

Lemma rate_function_default (event_type : Z) :
  event_type <> 0%Z -> event_type <> 1%Z ->
  rate_function tree_lambdas topo_lambdas event_type = topo_lambdas.
Proof.
  intros H0 H1; unfold rate_function.
  destruct (Z.eqb_spec event_type 0); [contradiction|].
  destruct (Z.eqb_spec event_type 1); [contradiction|reflexivity].
Qed.

Lemma get_ms_smc_loglik_asserts (species_tree : SpeciesTree)
    (genealogies : genealogies_arg ToyTree) (imap : Imap)
    (recombination_rate : float64) (lengths : list float64)
    (event_type : Z) (idxs : option (list Z)) :
  length lengths <> length (genealogy_list genealogies) ->
  get_ms_smc_loglik tree_lambdas topo_lambdas TreeEmbedding_new
    species_tree genealogies imap recombination_rate lengths
    event_type idxs = Raise AssertionError.
Proof.
  intros Hlen; unfold get_ms_smc_loglik.
  fold (genealogy_list genealogies).
  destruct (Nat.eqb_spec (length lengths) (length (genealogy_list genealogies)));
    [contradiction|reflexivity].
Qed.

(** C5.  When the rate provider returns strictly positive rates and the
    observed lengths are as many and non-negative, the waiting-distance
    kernel returns minus the sum over the genealogies of
    [log(rate) - rate * length]; for [N] genealogies that share one rate
    [r] and one length [l] this is [N] times [-(log(r) - r * l)]. *)
Theorem waiting_distance_kernel_value
    (embedding : TreeEmbedding EncArray BarrArray RarrArray)
    (recombination_rate : float64) (event_type : Z) (idxs : option (list Z))
    (rs ls : list R) :
  get_rates tree_lambdas topo_lambdas embedding recombination_rate
    event_type idxs = Ok (map Fin rs) ->
  length rs = length ls ->
  Forall (fun r => 0 < r)%R rs ->
  Forall (fun l => 0 <= l)%R ls ->
  get_ms_smc_loglik_from_embedding tree_lambdas topo_lambdas embedding
    recombination_rate (map Fin ls) event_type idxs =
  Ok (Fin (- spec_waiting_sum rs ls))
  /\ (forall (r l : R) (N : nat),
         rs = repeat r N -> ls = repeat l N ->
         get_ms_smc_loglik_from_embedding tree_lambdas topo_lambdas embedding
           recombination_rate (map Fin ls) event_type idxs =
         Ok (Fin (INR N * - (ln r - r * l)))).
Proof.
  intros Hrates Hlen Hrs Hls.
  assert (Hk : get_ms_smc_loglik_from_embedding tree_lambdas topo_lambdas
                 embedding recombination_rate (map Fin ls) event_type idxs =
               Ok (Fin (- spec_waiting_sum rs ls))).
  { unfold get_ms_smc_loglik_from_embedding; rewrite Hrates; cbn [bind].
    now apply waiting_distance_loglik_positive. }
  split; [exact Hk|].
  intros r l N Hr Hl; rewrite Hk; subst rs ls.
  rewrite spec_waiting_sum_repeat; do 2 f_equal; lra.
Qed.

(** C6, as the code has it.  When the number of observed lengths differs
    from the number of rates the provider returned and neither number is 1,
    the kernel raises the shape error of the broadcast and returns nothing;
    so does the wrapper, unless its assertion on the number of genealogies
    has failed before. *)
Theorem waiting_distance_shape_mismatch
    (embedding : TreeEmbedding EncArray BarrArray RarrArray)
    (recombination_rate : float64) (lengths : list float64) (event_type : Z)
    (idxs : option (list Z)) (rates : list float64) :
  get_rates tree_lambdas topo_lambdas embedding recombination_rate
    event_type idxs = Ok rates ->
  length lengths <> length rates ->
  length lengths <> 1 ->
  length rates <> 1 ->
  get_ms_smc_loglik_from_embedding tree_lambdas topo_lambdas embedding
    recombination_rate lengths event_type idxs = Raise ValueError
  /\ (forall (species_tree : SpeciesTree)
            (genealogies : genealogies_arg ToyTree) (imap : Imap),
         TreeEmbedding_new species_tree (genealogy_list genealogies) imap =
         Ok embedding ->
         get_ms_smc_loglik tree_lambdas topo_lambdas TreeEmbedding_new
           species_tree genealogies imap recombination_rate lengths
           event_type idxs =
         Raise (if Nat.eqb (length lengths)
                     (length (genealogy_list genealogies))
                then ValueError else AssertionError)).
Proof.
  intros Hrates Hne Hl1 Hr1.
  assert (Hk : get_ms_smc_loglik_from_embedding tree_lambdas topo_lambdas
                 embedding recombination_rate lengths event_type idxs =
               Raise ValueError).
  { unfold get_ms_smc_loglik_from_embedding; rewrite Hrates; cbn [bind].
    unfold waiting_distance_loglik, expon_logpdf, broadcast2.
    rewrite length_map.
    destruct (Nat.eqb_spec (length lengths) (length rates)); [contradiction|].
    destruct lengths as [|x [|x' lengths']]; simpl in Hl1; try lia;
      destruct rates as [|y [|y' rates']]; simpl in Hr1, Hne; try lia;
      reflexivity. }
  split; [exact Hk|].
  intros species_tree genealogies imap Hnew; unfold get_ms_smc_loglik.
  fold (genealogy_list genealogies).
  destruct (Nat.eqb (length lengths) (length (genealogy_list genealogies)));
    [|reflexivity].
  cbn [py_assert bind]; rewrite Hnew; cbn [bind]; exact Hk.
Qed.

(** C7, as the code has it.  Every selector other than 0 and 1, recognised
    or not, is dispatched to the topology-change provider: the call does
    what the call with selector 2 does, and the dispatch raises nothing. *)
Theorem event_type_default_dispatch (event_type : Z)
    (embedding : TreeEmbedding EncArray BarrArray RarrArray)
    (recombination_rate : float64) (lengths : list float64)
    (idxs : option (list Z)) :
  event_type <> 0%Z ->
  event_type <> 1%Z ->
  rate_function tree_lambdas topo_lambdas event_type = topo_lambdas
  /\ get_ms_smc_loglik_from_embedding tree_lambdas topo_lambdas embedding
       recombination_rate lengths event_type idxs =
     get_ms_smc_loglik_from_embedding tree_lambdas topo_lambdas embedding
       recombination_rate lengths 2 idxs.
Proof.
  intros H0 H1.
  pose proof (rate_function_default event_type H0 H1) as Hd.
  split; [exact Hd|].
  unfold get_ms_smc_loglik_from_embedding, get_rates; now rewrite Hd.
Qed.

End SMC_properties.

Lemma waiting_distance_kernel_value_witness :
  get_ms_smc_loglik_from_embedding (constant_provider (Fin 2)) raising_provider
    sample_tree_embedding (Fin 1) (map Fin [5; 5; 5]%R) 1 None =
  Ok (Fin (INR 3 * - (ln 2 - 2 * 5))).
Proof.
  refine (proj2 (waiting_distance_kernel_value unit unit unit
                   (constant_provider (Fin 2)) raising_provider
                   sample_tree_embedding (Fin 1) 1 None
                   [2; 2; 2]%R [5; 5; 5]%R _ _ _ _) 2%R 5%R 3 _ _);
    try reflexivity.
  - repeat constructor; lra.
  - repeat constructor; lra.
Defined.

Lemma waiting_distance_shape_mismatch_witness :
  get_ms_smc_loglik_from_embedding (constant_provider (Fin 2)) raising_provider
    sample_tree_embedding (Fin 1) [Fin 5; Fin 5] 1 None = Raise ValueError.
Proof.
  refine (proj1 (waiting_distance_shape_mismatch unit unit unit
                   (constant_provider (Fin 2)) raising_provider
                   unit unit unit
                   (fun (_ : unit) (_ : list unit) (_ : unit) =>
                      Ok sample_tree_embedding)
                   sample_tree_embedding (Fin 1) [Fin 5; Fin 5] 1 None
                   [Fin 2; Fin 2; Fin 2] _ _ _ _)).
  - reflexivity.
  - simpl; lia.
  - simpl; lia.
  - simpl; lia.
Defined.

(** C6, counterexample.  One observed length against the three rates of
    three genealogies: the numbers differ, and the call returns a value. *)
Lemma waiting_distance_broadcast_counterexample :
  get_rates (constant_provider (Fin 2)) raising_provider
    sample_tree_embedding (Fin 1) 1 None = Ok [Fin 2; Fin 2; Fin 2]
  /\ length [Fin 5] <> length [Fin 2; Fin 2; Fin 2]
  /\ get_ms_smc_loglik_from_embedding (constant_provider (Fin 2))
       raising_provider sample_tree_embedding (Fin 1) [Fin 5] 1 None =
     Ok (fneg (np_sum [expon_logpdf1 (Fin 5) (fdiv (Fin 1) (Fin 2));
                       expon_logpdf1 (Fin 5) (fdiv (Fin 1) (Fin 2));
                       expon_logpdf1 (Fin 5) (fdiv (Fin 1) (Fin 2))])).
Proof.
  split; [reflexivity|split; [simpl; lia|reflexivity]].
Qed.

Lemma event_type_default_dispatch_witness :
  get_ms_smc_loglik_from_embedding raising_provider (constant_provider (Fin 2))
    sample_tree_embedding (Fin 1) (map Fin [5; 5; 5]%R) 3 None =
  get_ms_smc_loglik_from_embedding raising_provider (constant_provider (Fin 2))
    sample_tree_embedding (Fin 1) (map Fin [5; 5; 5]%R) 2 None.
Proof.
  refine (proj2 (event_type_default_dispatch unit unit unit
                   raising_provider (constant_provider (Fin 2)) 3
                   sample_tree_embedding (Fin 1) (map Fin [5; 5; 5]%R) None
                   _ _)); lia.
Defined.

(** C7, counterexample.  The selector 3 is none of 0, 1 and 2, and the call
    returns the value computed from the topology-change rates. *)
Lemma event_type_unrecognised_counterexample :
  get_ms_smc_loglik_from_embedding raising_provider (constant_provider (Fin 2))
    sample_tree_embedding (Fin 1) (map Fin [5; 5; 5]%R) 3 None =
  Ok (Fin (- spec_waiting_sum [2; 2; 2]%R [5; 5; 5]%R)).
Proof.
  unfold get_ms_smc_loglik_from_embedding.
  replace (get_rates raising_provider (constant_provider (Fin 2))
             sample_tree_embedding (Fin 1) 3 None)
    with (Ok (map Fin [2; 2; 2]%R)) by reflexivity.
  cbn [bind]; apply waiting_distance_loglik_positive;
    [reflexivity|repeat constructor; lra|repeat constructor; lra].
Qed.

(** ** The population-size update *)

Lemma mapM_Forall2 {A B : Type} (f : A -> result B) (xs : list A) (ys : list B) :
  mapM f xs = Ok ys -> Forall2 (fun x y => f x = Ok y) xs ys.
Proof.
  revert ys; induction xs as [|x xs IH]; intros ys; simpl.
  - intros H; inversion H; constructor.
  - destruct (f x) as [y|] eqn:Hfx; simpl; [|discriminate].
    destruct (mapM f xs) as [ys'|]; simpl; [|discriminate].
    intros H; inversion H; subst; constructor; auto.
Qed.

Lemma Forall2_at {A B : Type} (P : A -> B -> Prop) (xs : list A) (ys : list B) :
  Forall2 P xs ys ->
  forall n x y, nth_error xs n = Some x -> nth_error ys n = Some y -> P x y.
Proof.
  induction 1 as [|x0 y0 xs ys H0 _ IH]; intros [|n] x y Hx Hy; simpl in *;
    try discriminate.
  - now inversion Hx; inversion Hy; subst.
  - eauto.
Qed.

Lemma Forall2_same_length {A B : Type} (P : A -> B -> Prop) (xs : list A)
    (ys : list B) :
  Forall2 P xs ys -> length ys = length xs.
Proof. induction 1; simpl; auto. Qed.

Lemma setitem_spec {A : Type} (a : list A) (i : nat) (v : A) (a' : list A) :
  setitem a i v = Ok a' ->
  nth_error a' i = Some v /\
  length a' = length a /\
  (forall j, j <> i -> nth_error a' j = nth_error a j).
Proof.
  revert i a'; induction a as [|x a IH]; intros i a'; [destruct i; discriminate|].
  destruct i as [|i]; simpl.
  - intros H; inversion H; subst; simpl.
    split; [reflexivity|split; [reflexivity|]].
    intros [|j] Hj; [contradiction|reflexivity].
  - destruct (setitem a i v) as [rest|] eqn:Hs; simpl; [|discriminate].
    intros H; inversion H; subst; simpl.
    destruct (IH i rest Hs) as [H1 [H2 H3]].
    split; [assumption|split; [now rewrite H2|]].
    intros [|j] Hj; [reflexivity|apply H3; lia].
Qed.

Lemma setitem_total {A : Type} (a : list A) (i : nat) (v : A) :
  i < length a -> exists a', setitem a i v = Ok a'.
Proof.
  revert i; induction a as [|x a IH]; intros i Hi; simpl in Hi; [lia|].
  destruct i as [|i]; simpl; [eauto|].
  destruct (IH i) as [a' Ha']; [lia|].
  rewrite Ha'; simpl; eauto.
Qed.

Lemma getitem_Ok_nat {A : Type} (a : list A) (n : nat) (x : A) :
  getitem a (Z.of_nat n) = Ok x <-> nth_error a n = Some x.
Proof.
  rewrite getitem_nat; destruct (nth_error a n); split; intros H;
    inversion H; reflexivity.
Qed.

(** *** The set of the population sizes *)

Lemma pyset_length_le (xs acc : list float64) :
  length acc <= length (pyset xs acc).
Proof.
  revert acc; induction xs as [|x xs IH]; intros acc; simpl; [lia|].
  destruct (existsb (feq x) acc); [apply IH|].
  specialize (IH (acc ++ [x])); rewrite length_app in IH; simpl in IH; lia.
Qed.

Lemma pyset_single (v : float64) (rest : list float64) :
  length (pyset rest [v]) = 1 <-> Forall (fun x => feq x v = true) rest.
Proof.
  induction rest as [|x rest IH]; simpl.
  - split; [constructor|reflexivity].
  - destruct (feq x v) eqn:Hx; simpl.
    + rewrite IH; split; [now constructor|now inversion 1].
    + split.
      * intros H; pose proof (pyset_length_le rest [v; x]); simpl in *; lia.
      * intros H; inversion H as [|? ? Hh Ht]; subst; simpl in Hh; congruence.
Qed.

Lemma pyset_all_equal (popsizes : list float64) :
  length (pyset popsizes []) = 1 <-> all_equal popsizes.
Proof.
  destruct popsizes as [|v rest]; simpl.
  - split; [discriminate|intros [v [rest [H _]]]; discriminate].
  - rewrite pyset_single; split.
    + intros H; exists v, rest; auto.
    + intros [v' [rest' [Heq H]]]; now inversion Heq; subst.
Qed.

(** *** One row in the per-branch mode *)

Lemma feq_of_nat_unique (x : float64) (i j : nat) :
  feq x (of_nat i) = true -> feq x (of_nat j) = true -> i = j.
Proof.
  destruct x as [r| | |]; simpl; try discriminate.
  destruct (Req_dec_T r (INR i)); [|discriminate].
  destruct (Req_dec_T r (INR j)); [|discriminate].
  intros _ _; apply INR_eq; congruence.
Qed.

Lemma assign_row_where_spec (idx : nat) (popsize : float64) (r r' : row) :
  assign_row_where idx popsize r = Ok r' ->
  exists x2,
    nth_error r 2 = Some x2 /\
    length r' = length r /\
    (forall j, j <> 3 -> nth_error r' j = nth_error r j) /\
    (feq x2 (of_nat idx) = true -> nth_error r' 3 = Some popsize) /\
    (feq x2 (of_nat idx) = false -> r' = r).
Proof.
  unfold assign_row_where; change 2%Z with (Z.of_nat 2).
  destruct (getitem r (Z.of_nat 2)) as [x2|] eqn:H2; simpl; [|discriminate].
  apply getitem_Ok_nat in H2; exists x2; split; [assumption|].
  destruct (feq x2 (of_nat idx)).
  - destruct (setitem_spec _ _ _ _ H) as [H3 [Hlen Hother]].
    repeat split; auto; discriminate.
  - destruct (getitem r 3); simpl in H; inversion H; subst.
    repeat split; auto; discriminate.
Qed.

Lemma update_row_per_branch_spec (popsizes : list float64) :
  forall (start : nat) (r r' : row) (x2 : float64),
    update_row_per_branch start popsizes r = Ok r' ->
    nth_error r 2 = Some x2 ->
    length r' = length r /\
    (forall j, j <> 3 -> nth_error r' j = nth_error r j) /\
    (forall i p, nth_error popsizes i = Some p ->
                 feq x2 (of_nat (start + i)) = true ->
                 nth_error r' 3 = Some p) /\
    ((forall i, i < length popsizes -> feq x2 (of_nat (start + i)) = false) ->
     r' = r).
Proof.
  unfold update_row_per_branch.
  induction popsizes as [|p0 ps IH]; intros start r r' x2;
    cbn [foldM enumerate_from fst snd].
  - intros H _; inversion H; subst.
    repeat split; auto; intros [|i] p; discriminate.
  - destruct (assign_row_where start p0 r) as [r1|] eqn:H1; cbn [bind];
      [|discriminate].
    intros Hrest Hx2.
    destruct (assign_row_where_spec _ _ _ _ H1)
      as [x2' [Hx2' [Hlen1 [Hother1 [Hhit1 Hmiss1]]]]].
    assert (x2' = x2) by congruence; subst x2'.
    assert (Hx2_1 : nth_error r1 2 = Some x2) by (rewrite Hother1; auto).
    destruct (IH (S start) r1 r' x2 Hrest Hx2_1)
      as [Hlen [Hother [Hhit Hmiss]]].
    split; [congruence|].
    split; [intros j Hj; rewrite Hother, Hother1; auto|].
    split.
    + intros [|i] p Hp Hfeq; simpl in Hp.
      * inversion Hp; subst p; rewrite Nat.add_0_r in Hfeq.
        rewrite Hmiss; [auto|].
        intros i Hi; destruct (feq x2 (of_nat (S start + i))) eqn:E;
          [|reflexivity].
        pose proof (feq_of_nat_unique _ _ _ Hfeq E); lia.
      * apply (Hhit i p Hp).
        now replace (S start + i) with (start + S i) by lia.
    + intros Hnone.
      rewrite Hmiss.
      * apply Hmiss1; specialize (Hnone 0); rewrite Nat.add_0_r in Hnone.
        apply Hnone; simpl; lia.
      * intros i Hi; replace (S start + i) with (start + S i) by lia.
        apply Hnone; simpl; lia.
Qed.

(** *** The whole array *)

Lemma Forall2_diag {A : Type} (P : A -> A -> Prop) (xs : list A) :
  (forall x, P x x) -> Forall2 P xs xs.
Proof. intros HP; induction xs; constructor; auto. Qed.

Lemma Forall2_compose {A B C : Type} (P : A -> B -> Prop) (Q : B -> C -> Prop)
    (xs : list A) (ys : list B) (zs : list C) :
  Forall2 P xs ys -> Forall2 Q ys zs ->
  Forall2 (fun x z => exists y, P x y /\ Q y z) xs zs.
Proof.
  intros HP; revert zs; induction HP as [|x y xs ys Hxy _ IH]; intros zs HQ;
    inversion HQ; subst; constructor; eauto.
Qed.

Lemma Forall2_transfer {A B : Type} (P : A -> B -> Prop) (Q : A -> Prop)
    (Q' : B -> Prop) (xs : list A) (ys : list B) :
  (forall x y, P x y -> Q x -> Q' y) ->
  Forall2 P xs ys -> Forall Q xs -> Forall Q' ys.
Proof.
  intros HPQ HP; induction HP; intros HQ; inversion HQ; subst; constructor;
    eauto.
Qed.

Lemma mapM_total {A B : Type} (f : A -> result B) (xs : list A) :
  Forall (fun x => exists y, f x = Ok y) xs -> exists ys, mapM f xs = Ok ys.
Proof.
  induction 1 as [|x xs [y Hy] _ [ys Hys]]; simpl; [eauto|].
  rewrite Hy, Hys; simpl; eauto.
Qed.

Lemma mapM2_Forall2 (f : row -> result row) (emb emb' : ndarray3) :
  mapM (mapM f) emb = Ok emb' ->
  Forall2 (Forall2 (fun r r' => f r = Ok r')) emb emb'.
Proof.
  intros H; apply mapM_Forall2 in H.
  eapply Forall2_impl; [|exact H].
  intros garr garr'; apply mapM_Forall2.
Qed.

Lemma mapM2_total (f : row -> result row) (emb : ndarray3) :
  Forall (Forall (fun r => exists r', f r = Ok r')) emb ->
  exists emb', mapM (mapM f) emb = Ok emb'.
Proof.
  intros H; apply mapM_total.
  eapply Forall_impl; [|exact H]; intros garr; apply mapM_total.
Qed.

Lemma Forall2_at2 (P : row -> row -> Prop) (emb emb' : ndarray3) :
  Forall2 (Forall2 P) emb emb' ->
  forall g r garr garr' x x',
    nth_error emb g = Some garr -> nth_error garr r = Some x ->
    nth_error emb' g = Some garr' -> nth_error garr' r = Some x' ->
    P x x'.
Proof.
  intros H g r garr garr' x x' Hg Hr Hg' Hr'.
  eapply Forall2_at; [|exact Hr|exact Hr'].
  eapply Forall2_at; [exact H|exact Hg|exact Hg'].
Qed.

Lemma per_branch_rows (ips : list (nat * float64)) :
  forall emb emb' : ndarray3,
    foldM (fun e ip => assign_field3_where e (fst ip) (snd ip)) ips emb = Ok emb' ->
    Forall2 (Forall2 (fun r r' =>
                        foldM (fun x ip => assign_row_where (fst ip) (snd ip) x)
                              ips r = Ok r'))
            emb emb'.
Proof.
  induction ips as [|[idx p] ips IH]; intros emb emb'; cbn [foldM fst snd].
  - intros H; inversion H; subst.
    apply Forall2_diag; intros garr; apply Forall2_diag; reflexivity.
  - destruct (assign_field3_where emb idx p) as [e1|] eqn:H1; cbn [bind];
      [|discriminate].
    intros Hrest; apply IH in Hrest; apply mapM2_Forall2 in H1.
    pose proof (Forall2_compose _ _ _ _ _ H1 Hrest) as Hc.
    eapply Forall2_impl; [|exact Hc].
    intros garr garr' [g1 [Ha Hb]].
    pose proof (Forall2_compose _ _ _ _ _ Ha Hb) as Hrows.
    eapply Forall2_impl; [|exact Hrows].
    intros r r' [r1 [Hr1 Hr']]; now rewrite Hr1.
Qed.

Lemma assign_row_where_total (idx : nat) (popsize : float64) (r : row) :
  4 <= length r ->
  exists r', assign_row_where idx popsize r = Ok r' /\ length r' = length r.
Proof.
  intros Hlen; unfold assign_row_where.
  change 2%Z with (Z.of_nat 2); change 3%Z with (Z.of_nat 3).
  rewrite !getitem_nat.
  destruct (nth_error r 2) as [x2|] eqn:H2;
    [|apply nth_error_None in H2; lia].
  destruct (nth_error r 3) as [x3|] eqn:H3;
    [|apply nth_error_None in H3; lia].
  cbn [bind]; destruct (feq x2 (of_nat idx)); [|eauto].
  destruct (setitem_total r 3 popsize) as [r' Hr']; [lia|].
  exists r'; split; [assumption|].
  now destruct (setitem_spec _ _ _ _ Hr') as [_ [Hl _]].
Qed.

Lemma assign_field3_where_total (emb : ndarray3) (idx : nat) (popsize : float64) :
  wide_enough emb ->
  exists emb', assign_field3_where emb idx popsize = Ok emb' /\ wide_enough emb'.
Proof.
  intros Hw; unfold assign_field3_where.
  destruct (mapM2_total (assign_row_where idx popsize) emb) as [emb' He].
  { eapply Forall_impl; [|exact Hw]; intros garr Hg.
    eapply Forall_impl; [|exact Hg]; intros r Hr.
    destruct (assign_row_where_total idx popsize r Hr) as [r' [H _]]; eauto. }
  exists emb'; split; [assumption|].
  apply mapM2_Forall2 in He.
  unfold wide_enough.
  eapply Forall2_transfer; [|exact He|exact Hw].
  intros garr garr' Hrel Hg; cbv beta in *.
  eapply Forall2_transfer; [|exact Hrel|exact Hg].
  intros r r' Hr Hl; cbv beta in *.
  destruct (assign_row_where_spec _ _ _ _ Hr) as [_ [_ [Hlen _]]]; lia.
Qed.

Lemma per_branch_total (ips : list (nat * float64)) :
  forall emb : ndarray3,
    wide_enough emb ->
    exists emb',
      foldM (fun e ip => assign_field3_where e (fst ip) (snd ip)) ips emb =
      Ok emb'.
Proof.
  induction ips as [|[idx p] ips IH]; intros emb Hw; cbn [foldM fst snd];
    [eauto|].
  destruct (assign_field3_where_total emb idx p Hw) as [e1 [H1 Hw1]].
  rewrite H1; cbn [bind]; now apply IH.
Qed.

Lemma update_neffs_total (emb : ndarray3) (popsizes : list float64) :
  wide_enough emb -> exists emb', _update_neffs emb popsizes = Ok emb'.
Proof.
  intros Hw; unfold _update_neffs.
  destruct (Nat.eqb_spec (length (pyset popsizes [])) 1) as [H1|_];
    [|now apply per_branch_total].
  apply pyset_all_equal in H1; destruct H1 as [v [rest [-> _]]].
  replace (getitem (v :: rest) 0) with (Ok v) by reflexivity; cbn [bind].
  apply mapM2_total.
  eapply Forall_impl; [|exact Hw]; intros garr Hg.
  eapply Forall_impl; [|exact Hg]; intros r Hr.
  apply setitem_total; simpl in Hr; lia.
Qed.

(** What a call that returns has done to each row: the relation between a
    row [r] before and the same row [r'] after. *)
Lemma update_neffs_rows (emb emb' : ndarray3) (popsizes : list float64) :
  _update_neffs emb popsizes = Ok emb' ->
  (all_equal popsizes /\
   exists v, nth_error popsizes 0 = Some v /\
             Forall2 (Forall2 (fun r r' => setitem r 3 v = Ok r')) emb emb')
  \/ (~ all_equal popsizes /\
      Forall2 (Forall2 (fun r r' => update_row_per_branch 0 popsizes r = Ok r'))
              emb emb').
Proof.
  unfold _update_neffs.
  destruct (Nat.eqb_spec (length (pyset popsizes [])) 1) as [H1|H1].
  - apply pyset_all_equal in H1; intros H; left; split; [assumption|].
    destruct H1 as [v [rest [-> _]]].
    replace (getitem (v :: rest) 0) with (Ok v) in H by reflexivity.
    exists v; split; [reflexivity|now apply mapM2_Forall2].
  - intros H; right; split; [now rewrite <- pyset_all_equal|].
    now apply per_branch_rows.
Qed.

Lemma Forall2_nth_exists {A B : Type} (P : A -> B -> Prop) (xs : list A)
    (ys : list B) :
  Forall2 P xs ys ->
  forall n x, nth_error xs n = Some x ->
              exists y, nth_error ys n = Some y /\ P x y.
Proof.
  induction 1 as [|x0 y0 xs ys H0 _ IH]; intros [|n] x Hx; simpl in *;
    try discriminate.
  - inversion Hx; subst; eauto.
  - eauto.
Qed.

Lemma update_row_per_branch_length (popsizes : list float64) (x x' : row) :
  update_row_per_branch 0 popsizes x = Ok x' -> length x' = length x.
Proof.
  intros Hs; destruct (nth_error x 2) as [x2|] eqn:Hx2.
  - now destruct (update_row_per_branch_spec popsizes 0 x x' x2 Hs Hx2).
  - destruct popsizes as [|p0 ps]; [now inversion Hs|].
    unfold update_row_per_branch in Hs; cbn [foldM enumerate_from] in Hs.
    destruct (assign_row_where (fst (0, p0)) (snd (0, p0)) x)
      as [x1|] eqn:H1; [|discriminate].
    destruct (assign_row_where_spec _ _ _ _ H1) as [x2 [Hx2' _]]; congruence.
Qed.

Lemma update_neffs_shape (emb emb' : ndarray3) (popsizes : list float64) :
  _update_neffs emb popsizes = Ok emb' ->
  Forall2 (Forall2 (fun x x' : row => length x' = length x)) emb emb'.
Proof.
  intros Hu.
  destruct (update_neffs_rows emb emb' popsizes Hu)
    as [[_ [v [_ Hrows]]]|[_ Hrows]].
  - eapply Forall2_impl; [|exact Hrows]; intros garr garr' Hg.
    eapply Forall2_impl; [|exact Hg]; intros x x' Hs.
    now destruct (setitem_spec _ _ _ _ Hs) as [_ [Hl _]].
  - eapply Forall2_impl; [|exact Hrows]; intros garr garr' Hg.
    eapply Forall2_impl; [|exact Hg]; intros x x'.
    apply update_row_per_branch_length.
Qed.

(** C9.  On an array with at least one row, whose rows all have a field 3,
    the update returns an array of the same shape, the array overwritten in
    place, and every row of the array is found in it at its position with
    field 3 assigned: when the entries of the vector are all equal, field 3
    of every row holds that value; otherwise field 3 of a row holds the
    [i]-th value exactly when field 2 of the row equals the index [i], and
    is as before when field 2 equals no index.  The value stored is the
    supplied one, not a multiple of it. *)
Theorem update_neffs_assigns_field3 (emb : ndarray3) (popsizes : list float64) :
  wide_enough emb ->
  has_row emb ->
  exists emb' : ndarray3,
    _update_neffs emb popsizes = Ok emb' /\
    Forall2 (Forall2 (fun x x' : row => length x' = length x)) emb emb' /\
    forall (g r : nat) (garr : ndarray2) (x : row),
      nth_error emb g = Some garr -> nth_error garr r = Some x ->
      exists (garr' : ndarray2) (x' : row),
        nth_error emb' g = Some garr' /\ nth_error garr' r = Some x' /\
        (all_equal popsizes -> nth_error x' 3 = nth_error popsizes 0)
        /\ (~ all_equal popsizes ->
            forall x2 : float64,
              nth_error x 2 = Some x2 ->
              (forall (i : nat) (p : float64),
                  nth_error popsizes i = Some p ->
                  feq x2 (of_nat i) = true ->
                  nth_error x' 3 = Some p)
              /\ (no_branch popsizes x2 -> nth_error x' 3 = nth_error x 3)).
Proof.
  intros Hw _; destruct (update_neffs_total emb popsizes Hw) as [emb' Hu].
  exists emb'; split; [exact Hu|].
  pose proof (update_neffs_shape emb emb' popsizes Hu) as Hshape.
  split; [exact Hshape|].
  intros g r garr x Hg Hr.
  destruct (Forall2_nth_exists _ _ _ Hshape g garr Hg) as [garr' [Hg' Hgs]].
  destruct (Forall2_nth_exists _ _ _ Hgs r x Hr) as [x' [Hr' _]].
  exists garr', x'; split; [exact Hg'|split; [exact Hr'|]].
  destruct (update_neffs_rows emb emb' popsizes Hu)
    as [[Heq [v [Hv Hrows]]]|[Hneq Hrows]].
  - split; [|contradiction].
    intros _; rewrite Hv.
    pose proof (Forall2_at2 _ _ _ Hrows g r garr garr' x x' Hg Hr Hg' Hr') as Hs.
    now destruct (setitem_spec _ _ _ _ Hs) as [H3 _].
  - split; [contradiction|].
    intros _ x2 Hx2.
    pose proof (Forall2_at2 _ _ _ Hrows g r garr garr' x x' Hg Hr Hg' Hr') as Hs.
    destruct (update_row_per_branch_spec popsizes 0 x x' x2 Hs Hx2)
      as [_ [_ [Hhit Hmiss]]].
    split; [exact Hhit|].
    intros Hnone; rewrite (Hmiss Hnone); reflexivity.
Qed.

Lemma update_neffs_assigns_field3_witness :
  wide_enough sample_embedding /\
  has_row sample_embedding /\
  exists emb' : ndarray3,
    _update_neffs sample_embedding [Fin 7; Fin 8] = Ok emb' /\
    Forall2 (Forall2 (fun x x' : row => length x' = length x))
            sample_embedding emb' /\
    exists (garr' : ndarray2) (x' : row),
      nth_error emb' 1 = Some garr' /\ nth_error garr' 0 = Some x' /\
      nth_error x' 3 = Some (Fin 7).
Proof.
  assert (Hw : wide_enough sample_embedding).
  { unfold wide_enough, sample_embedding, one_coalescence.
    repeat constructor; simpl; lia. }
  assert (Hr : has_row sample_embedding).
  { exists (one_coalescence (Fin 100) (Fin 0)),
           [Fin 0; Fin 0; Fin 0; Fin 100; Fin 2; Fin 0].
    split; left; reflexivity. }
  assert (Hneq : ~ all_equal [Fin 7; Fin 8]).
  { intros [v [rest [Heq Hall]]]; inversion Heq; subst.
    inversion Hall as [|? ? H78 _]; subst; simpl in H78.
    destruct (Req_dec_T 8 7); [lra|discriminate]. }
  assert (H0 : feq (Fin 0) (of_nat 0) = true).
  { unfold feq, of_nat; simpl; destruct (Req_dec_T 0 0);
      [reflexivity|contradiction]. }
  split; [exact Hw|split; [exact Hr|]].
  destruct (update_neffs_assigns_field3 sample_embedding [Fin 7; Fin 8] Hw Hr)
    as [emb' [Hu [Hshape Hrows]]].
  exists emb'; split; [exact Hu|split; [exact Hshape|]].
  destruct (Hrows 1 0 (one_coalescence (Fin 100) (Fin 0))
              [Fin 0; Fin 0; Fin 0; Fin 100; Fin 2; Fin 0]
              eq_refl eq_refl) as [garr' [x' [Hg' [Hr' [_ Hper]]]]].
  exists garr', x'; split; [exact Hg'|split; [exact Hr'|]].
  exact (proj1 (Hper Hneq (Fin 0) eq_refl) 0 (Fin 7) eq_refl H0).
Defined.

(** C10.  A call that returns leaves the shape of the array and every
    entry outside field 3 as they were.  In the per-branch mode field 3 of
    a row whose field 2 equals no index of the vector, in particular a
    finite value not below its length, is also as it was; in the broadcast
    mode field 3 of every row is overwritten, whatever its field 2. *)
Theorem update_neffs_frame (emb emb' : ndarray3) (popsizes : list float64) :
  _update_neffs emb popsizes = Ok emb' ->
  Forall2 (Forall2 (fun x x' : row => length x' = length x)) emb emb'
  /\ forall (g r : nat) (garr garr' : ndarray2) (x x' : row),
      nth_error emb g = Some garr -> nth_error garr r = Some x ->
      nth_error emb' g = Some garr' -> nth_error garr' r = Some x' ->
      (forall j : nat, j <> 3 -> nth_error x' j = nth_error x j)
      /\ (~ all_equal popsizes ->
          forall x2 : float64,
            nth_error x 2 = Some x2 ->
            (no_branch popsizes x2 -> nth_error x' 3 = nth_error x 3)
            /\ (forall z : R,
                   x2 = Fin z -> (INR (length popsizes) <= z)%R ->
                   nth_error x' 3 = nth_error x 3))
      /\ (all_equal popsizes -> nth_error x' 3 = nth_error popsizes 0).
Proof.
  intros Hu.
  destruct (update_neffs_rows emb emb' popsizes Hu)
    as [[Heq [v [Hv Hrows]]]|[Hneq Hrows]].
  - split.
    + eapply Forall2_impl; [|exact Hrows]; intros garr garr' Hg.
      eapply Forall2_impl; [|exact Hg]; intros x x' Hs.
      now destruct (setitem_spec _ _ _ _ Hs) as [_ [Hl _]].
    + intros g r garr garr' x x' Hg Hr Hg' Hr'.
      pose proof (Forall2_at2 _ _ _ Hrows g r garr garr' x x' Hg Hr Hg' Hr')
        as Hs.
      destruct (setitem_spec _ _ _ _ Hs) as [H3 [_ Hother]].
      split; [exact Hother|split; [contradiction|]].
      intros _; now rewrite Hv.
  - assert (Hrow : forall x x' : row,
               update_row_per_branch 0 popsizes x = Ok x' ->
               length x' = length x /\
               (forall j, j <> 3 -> nth_error x' j = nth_error x j) /\
               (forall x2, nth_error x 2 = Some x2 ->
                           no_branch popsizes x2 -> x' = x)).
    { intros x x' Hs.
      destruct (nth_error x 2) as [x2|] eqn:Hx2.
      - destruct (update_row_per_branch_spec popsizes 0 x x' x2 Hs Hx2)
          as [Hl [Hother [_ Hmiss]]].
        split; [exact Hl|split; [exact Hother|]].
        intros x2' Heq2 Hnone; inversion Heq2; subst x2'; now apply Hmiss.
      - destruct popsizes as [|p0 ps].
        + inversion Hs; subst; repeat split; auto.
        + unfold update_row_per_branch in Hs; cbn [foldM enumerate_from] in Hs.
          destruct (assign_row_where (fst (0, p0)) (snd (0, p0)) x)
            as [x1|] eqn:H1; [|discriminate].
          destruct (assign_row_where_spec _ _ _ _ H1) as [x2 [Hx2' _]].
          congruence. }
    split.
    + eapply Forall2_impl; [|exact Hrows]; intros garr garr' Hg.
      eapply Forall2_impl; [|exact Hg]; intros x x' Hs.
      now destruct (Hrow x x' Hs) as [Hl _].
    + intros g r garr garr' x x' Hg Hr Hg' Hr'.
      pose proof (Forall2_at2 _ _ _ Hrows g r garr garr' x x' Hg Hr Hg' Hr')
        as Hs.
      destruct (Hrow x x' Hs) as [_ [Hother Hmiss]].
      split; [exact Hother|split; [|contradiction]].
      intros _ x2 Hx2.
      assert (Hkeep : no_branch popsizes x2 -> nth_error x' 3 = nth_error x 3)
        by (intros Hnone; now rewrite (Hmiss x2 Hx2 Hnone)).
      split; [exact Hkeep|].
      intros z -> Hz; apply Hkeep.
      intros i Hi; unfold feq, of_nat.
      destruct (Req_dec_T z (INR i)) as [->|]; [|reflexivity].
      apply lt_INR in Hi; lra.
Qed.

Lemma update_neffs_frame_witness :
  _update_neffs sample_embedding [Fin 7] =
  Ok [ one_coalescence (Fin 7) (Fin 0); one_coalescence (Fin 7) (Fin 0) ]
  /\ Forall2 (Forall2 (fun x x' : row => length x' = length x))
       sample_embedding
       [ one_coalescence (Fin 7) (Fin 0); one_coalescence (Fin 7) (Fin 0) ].
Proof.
  assert (Hu : _update_neffs sample_embedding [Fin 7] =
               Ok [ one_coalescence (Fin 7) (Fin 0);
                    one_coalescence (Fin 7) (Fin 0) ]) by reflexivity.
  split; [exact Hu|].
  exact (proj1 (update_neffs_frame _ _ _ Hu)).
Defined.

(** C8 (evaluation).  With the selector 0 and the subset [[0]] of three
    genealogies, the rates are [recombination_rate * sarr] for all three
    genealogies: three rates where the subset has one index, while a
    provider that keeps the contract returns one. *)
Theorem recomb_rates_ignore_subset :
  get_rates (constant_provider (Fin 2)) raising_provider
    sample_tree_embedding (Fin 3) 0 (Some [0%Z]) =
  Ok [fmul (Fin 3) (Fin 10); fmul (Fin 3) (Fin 20); fmul (Fin 3) (Fin 30)]
  /\ length [fmul (Fin 3) (Fin 10); fmul (Fin 3) (Fin 20); fmul (Fin 3) (Fin 30)]
     <> length [0%Z]
  /\ get_rates (constant_provider (Fin 2)) raising_provider
       sample_tree_embedding (Fin 3) 1 (Some [0%Z]) = Ok [Fin 2].
Proof.
  split; [reflexivity|split; [simpl; lia|reflexivity]].
Qed.

(** * Further properties of the kernels *)

(** ** More arithmetic of the float model *)

Lemma fadd_assoc (x y z : float64) : fadd (fadd x y) z = fadd x (fadd y z).
Proof.
  destruct x, y, z; simpl; try reflexivity.
  now rewrite Rplus_assoc.
Qed.

Lemma fadd_zero_l (x : float64) : fadd (Fin 0) x = x.
Proof. destruct x; simpl; try reflexivity; now rewrite Rplus_0_l. Qed.

Lemma fneg_fadd (x y : float64) : fneg (fadd x y) = fadd (fneg x) (fneg y).
Proof.
  destruct x, y; simpl; try reflexivity.
  now rewrite Ropp_plus_distr.
Qed.

Lemma fold_left_fadd_acc (xs : list float64) (acc : float64) :
  fold_left fadd xs acc = fadd acc (fold_left fadd xs (Fin 0)).
Proof.
  revert acc; induction xs as [|x xs IH]; intros acc; cbn [fold_left].
  - destruct acc; simpl; try reflexivity; now rewrite Rplus_0_r.
  - rewrite IH, (IH (fadd (Fin 0) x)), fadd_zero_l; apply fadd_assoc.
Qed.

Lemma np_sum_app (xs ys : list float64) :
  np_sum (xs ++ ys) = fadd (np_sum xs) (np_sum ys).
Proof.
  unfold np_sum; rewrite fold_left_app; apply fold_left_fadd_acc.
Qed.

Lemma mapM_app {A B : Type} (f : A -> result B) (xs ys : list A) :
  mapM f (xs ++ ys) =
  (xs' <- mapM f xs ;; ys' <- mapM f ys ;; Ok (xs' ++ ys')).
Proof.
  induction xs as [|x xs IH]; simpl.
  - destruct (mapM f ys); reflexivity.
  - destruct (f x); simpl; [|reflexivity].
    rewrite IH; destruct (mapM f xs); simpl; [|reflexivity].
    destruct (mapM f ys); reflexivity.
Qed.


(** ** The closed form of an interval *)

Lemma coal_rate_positive (c : convention) (ne : R) :
  (0 < ne)%R ->
  coal_rate c (Fin ne) = Ok (Fin (rate_R c ne)) /\ (0 < rate_R c ne)%R.
Proof.
  intros Hne; destruct c; unfold coal_rate, truediv, rate_R; cbn [fmul].
  - rewrite fdiv_Fin by lra; split; [reflexivity|].
    apply Rdiv_lt_0_compat; lra.
  - rewrite fdiv_Fin by lra; split; [reflexivity|].
    apply Rdiv_lt_0_compat; lra.
Qed.

Lemma spec_coal_factor_Fin (r : R) (nd : R * R) :
  spec_coal_factor (Fin r) (lift_fields nd) =
  Fin (r * exp (- (r * pairs_R (fst nd)) * snd nd)).
Proof.
  unfold spec_coal_factor, lift_fields, pairs_R; cbn [fst snd fsub fneg fadd fmul].
  rewrite fdiv_two; reflexivity.
Qed.

Lemma spec_coal_fold_Fin (r : R) (rnds : list (R * R)) (a : R) :
  fold_left (fun p nd => fmul p (spec_coal_factor (Fin r) nd))
            (map lift_fields rnds) (Fin a) =
  Fin (fold_left
         (fun p nd => p * (r * exp (- (r * pairs_R (fst nd)) * snd nd)))%R
         rnds a).
Proof.
  revert a; induction rnds as [|nd rnds IH]; intros a; cbn [map fold_left];
    [reflexivity|].
  rewrite spec_coal_factor_Fin; cbn [fmul]; apply IH.
Qed.

Lemma coal_product_closed (r : R) (rnds : list (R * R)) (a : R) :
  (0 < r)%R ->
  fold_left
    (fun p nd => p * (r * exp (- (r * pairs_R (fst nd)) * snd nd)))%R rnds a =
  (a * exp (INR (length rnds) * ln r - decay_R r rnds))%R.
Proof.
  intros Hr; revert a; induction rnds as [|[n d] rnds IH]; intros a.
  - simpl; rewrite Rmult_0_l, Rminus_0_r, exp_0; lra.
  - cbn [fold_left fst snd]; rewrite IH; cbn [decay_R fold_right fst snd length].
    fold (decay_R r rnds); rewrite S_INR.
    replace ((INR (length rnds) + 1) * ln r
             - (r * pairs_R n * d + decay_R r rnds))%R
      with (ln r + (- (r * pairs_R n) * d
                    + (INR (length rnds) * ln r - decay_R r rnds)))%R by ring.
    rewrite !exp_plus, exp_ln by assumption; ring.
Qed.

Lemma decay_R_snoc (r : R) (rnds : list (R * R)) (n d : R) :
  decay_R r (rnds ++ [(n, d)]) = (decay_R r rnds + r * pairs_R n * d)%R.
Proof.
  induction rnds as [|nd rnds IH]; simpl; [lra|].
  fold (decay_R r (rnds ++ [(n, d)])); fold (decay_R r rnds); rewrite IH; lra.
Qed.

Lemma getitem2_last (body : ndarray2) (last : row) (j : nat) :
  getitem2 (body ++ [last]) (-1) (Z.of_nat j) =
  match nth_error last j with
  | Some x => Ok x
  | None => Raise IndexError
  end.
Proof. unfold getitem2; rewrite getitem_last; cbn [bind]; apply getitem_nat. Qed.

Lemma interval_prob_exp (c : convention) (body : ndarray2)
    (last : row) (rnds : list (R * R)) (ne nL : R) (x : float64) :
  getitem2 (body ++ [last]) 0 3 = Ok (Fin ne) ->
  (0 < ne)%R ->
  Forall2 has_fields45 body (map lift_fields rnds) ->
  nth_error last 4 = Some (Fin nL) ->
  nth_error last 5 = Some x ->
  (forall dL : R,
      x = Fin dL ->
      interval_prob c (body ++ [last]) =
      Ok (Fin (exp (INR (length body) * ln (rate_R c ne)
                    - decay_R (rate_R c ne) (rnds ++ [(nL, dL)])))))
  /\ (isinf x = true ->
      interval_prob c (body ++ [last]) =
      Ok (Fin (exp (INR (length body) * ln (rate_R c ne)
                    - decay_R (rate_R c ne) rnds)))).
Proof.
  intros Hne Hpos Hrows H4 H5.
  destruct (coal_rate_positive c ne Hpos) as [Hrate Hr].
  set (r := rate_R c ne) in *.
  assert (Hlen : length body = length rnds).
  { apply Forall2_length in Hrows; now rewrite length_map in Hrows. }
  rewrite (interval_prob_rows c body last _ _ _ Hne Hrate Hrows).
  unfold spec_coal_product; rewrite spec_coal_fold_Fin, coal_product_closed
    by assumption.
  rewrite Rmult_1_l, <- Hlen.
  unfold last_step; change 4%Z with (Z.of_nat 4); change 5%Z with (Z.of_nat 5).
  rewrite !getitem2_last, H4, H5; cbn [bind].
  split.
  - intros dL ->; cbn [isinf negb]; rewrite npairs_of_Fin.
    cbn [fmul fneg fexp]; rewrite <- exp_plus, decay_R_snoc.
    do 3 f_equal; unfold pairs_R; ring.
  - intros ->; reflexivity.
Qed.

(** X1.  For a group with a finite positive population size, finite
    coalescence rows [(n, d)] and a last row of finite lineage count, the
    probability of the interval is the positive number
    [exp(k * log(rate) - sum of rate * n(n-1)/2 * d)], with [k] the number
    of coalescence rows; the sum runs over all rows when the last length is
    finite and over the coalescence rows only when it is infinite. *)
Theorem interval_prob_closed_form (c : convention) (body : ndarray2)
    (last : row) (rnds : list (R * R)) (ne nL : R) (x : float64) :
  getitem2 (body ++ [last]) 0 3 = Ok (Fin ne) ->
  (0 < ne)%R ->
  Forall2 has_fields45 body (map lift_fields rnds) ->
  nth_error last 4 = Some (Fin nL) ->
  nth_error last 5 = Some x ->
  (forall dL : R,
      x = Fin dL ->
      interval_prob c (body ++ [last]) =
      Ok (Fin (exp (INR (length body) * ln (rate_R c ne)
                    - decay_R (rate_R c ne) (rnds ++ [(nL, dL)])))))
  /\ (isinf x = true ->
      interval_prob c (body ++ [last]) =
      Ok (Fin (exp (INR (length body) * ln (rate_R c ne)
                    - decay_R (rate_R c ne) rnds)))).
Proof.
  intros Hne Hpos Hrows H4 H5.
  exact (interval_prob_exp c body last rnds ne nL x Hne Hpos Hrows H4 H5).
Qed.

Lemma interval_prob_closed_form_witness :
  interval_prob ConvA (one_coalescence (Fin 100) (Fin 3)) =
  Ok (Fin (exp (INR 1 * ln (rate_R ConvA 100)
                - decay_R (rate_R ConvA 100) [(2, 3)]%R))).
Proof.
  refine (proj2 (interval_prob_closed_form ConvA
                   [[Fin 0; Fin 3; Fin 0; Fin 100; Fin 2; Fin 3]]
                   [Fin 3; PInf; Fin 0; Fin 100; Fin 1; PInf]
                   [(2, 3)]%R 100 1 PInf _ _ _ _ _) _); try reflexivity.
  - lra.
  - repeat constructor.
Defined.

(** ** A population size of zero *)










(** ** Batches *)

Lemma getitem_app_first {A : Type} (xs ys : list A) (x : A) :
  getitem xs 0 = Ok x -> getitem (xs ++ ys) 0 = Ok x.
Proof.
  change 0%Z with (Z.of_nat 0); rewrite !getitem_nat.
  destruct xs as [|x0 xs]; [discriminate|trivial].
Qed.

(** X5.  The kernels are additive over batches: when two embedding arrays
    have the same number of species intervals and the kernel returns on
    each, it returns the sum of the two values on their concatenation. *)
Theorem msc_kernel_concat (c : convention) (e1 e2 : ndarray3)
    (x1 x2 : float64) (nspecies : Z) (v1 v2 : float64) :
  getitem3 e1 0 (-1) 2 = Ok x1 -> py_int x1 = Ok nspecies ->
  getitem3 e2 0 (-1) 2 = Ok x2 -> py_int x2 = Ok nspecies ->
  msc_kernel c e1 = Ok v1 ->
  msc_kernel c e2 = Ok v2 ->
  msc_kernel c (e1 ++ e2) = Ok (fadd v1 v2).
Proof.
  intros Hx1 Hn1 Hx2 Hn2 Hk1 Hk2.
  assert (Hx : getitem3 (e1 ++ e2) 0 (-1) 2 = Ok x1).
  { unfold getitem3 in *.
    destruct (getitem e1 0) as [g|] eqn:Hg; [|discriminate].
    now rewrite (getitem_app_first e1 e2 g Hg). }
  unfold msc_kernel in *.
  rewrite Hx1 in Hk1; rewrite Hx2 in Hk2; rewrite Hx.
  cbn [bind] in *; rewrite Hn1 in *; rewrite Hn2 in Hk2; cbn [bind] in *.
  rewrite mapM_app.
  destruct (mapM (genealogy_loglik c nspecies) e1) as [l1|]; [|discriminate].
  destruct (mapM (genealogy_loglik c nspecies) e2) as [l2|]; [|discriminate].
  cbn [bind] in *; inversion Hk1; inversion Hk2.
  now rewrite np_sum_app, fneg_fadd.
Qed.

Lemma msc_kernel_concat_witness :
  exists v : float64,
    msc_kernel ConvA sample_embedding = Ok v /\
    msc_kernel ConvA (sample_embedding ++ sample_embedding) = Ok (fadd v v).
Proof.
  destruct (coal_rate_positive ConvA 100) as [Hrate _]; [lra|].
  pose proof (msc_kernel_one_coalescence ConvA (Fin 100) (Fin 0) _ Hrate) as Hv.
  eexists; split; [exact Hv|].
  refine (msc_kernel_concat ConvA sample_embedding sample_embedding
            (Fin 0) (Fin 0) 0 _ _ _ _ _ _ Hv Hv);
    try reflexivity; cbn [py_int]; now rewrite Ztrunc_IZR.
Defined.

(** ** The sweeps over test values *)

Lemma same_but_field3_cases (r r' : row) :
  same_but_field3 r r' ->
  r' = r \/
  exists x0 x1 x2 x3 x3' rest,
    r = x0 :: x1 :: x2 :: x3 :: rest /\ r' = x0 :: x1 :: x2 :: x3' :: rest.
Proof.
  intros [Hlen Hnth].
  destruct r as [|x0 [|x1 [|x2 [|x3 rest]]]];
    destruct r' as [|y0 [|y1 [|y2 [|y3 rest']]]]; try discriminate;
    try (left; reflexivity).
  - left; pose proof (Hnth 0 ltac:(lia)) as H0; simpl in H0; congruence.
  - left; pose proof (Hnth 0 ltac:(lia)) as H0; pose proof (Hnth 1 ltac:(lia)) as H1.
    simpl in *; congruence.
  - left; pose proof (Hnth 0 ltac:(lia)) as H0; pose proof (Hnth 1 ltac:(lia)) as H1.
    pose proof (Hnth 2 ltac:(lia)) as H2; simpl in *; congruence.
  - right; exists x0, x1, x2, x3, y3, rest.
    pose proof (Hnth 0 ltac:(lia)) as H0; pose proof (Hnth 1 ltac:(lia)) as H1.
    pose proof (Hnth 2 ltac:(lia)) as H2; simpl in H0, H1, H2.
    assert (rest' = rest).
    { apply nth_error_ext; intros n.
      exact (Hnth (4 + n) ltac:(lia)). }
    split; [reflexivity|congruence].
Qed.

Lemma setitem_same_but_field3 (r r' : row) (v : float64) :
  same_but_field3 r r' -> setitem r' 3 v = setitem r 3 v.
Proof.
  intros H; destruct (same_but_field3_cases r r' H)
    as [->|[x0 [x1 [x2 [x3 [x3' [rest [-> ->]]]]]]]]; reflexivity.
Qed.

Lemma setitem_field3_related (r r' : row) (v : float64) :
  setitem r 3 v = Ok r' -> same_but_field3 r r'.
Proof.
  intros H; destruct (setitem_spec _ _ _ _ H) as [_ [Hlen Hother]].
  split; assumption.
Qed.

Lemma mapM_related {A B C : Type} (P : A -> B -> Prop) (f : A -> result C)
    (g : B -> result C) (xs : list A) (ys : list B) :
  (forall x y, P x y -> g y = f x) ->
  Forall2 P xs ys -> mapM g ys = mapM f xs.
Proof.
  intros Hfg; induction 1 as [|x y xs ys Hxy _ IH]; simpl; [reflexivity|].
  now rewrite (Hfg x y Hxy), IH.
Qed.

Lemma assign_field3_same (emb emb' : ndarray3) (v : float64) :
  Forall2 (Forall2 same_but_field3) emb emb' ->
  assign_field3 emb' v = assign_field3 emb v.
Proof.
  intros H; unfold assign_field3.
  apply (mapM_related (Forall2 same_but_field3)); [|exact H].
  intros garr garr' Hg.
  apply (mapM_related same_but_field3); [|exact Hg].
  intros r r'; apply setitem_same_but_field3.
Qed.

Lemma assign_field3_related (emb emb' : ndarray3) (v : float64) :
  assign_field3 emb v = Ok emb' -> Forall2 (Forall2 same_but_field3) emb emb'.
Proof.
  intros H; apply mapM2_Forall2 in H.
  eapply Forall2_impl; [|exact H]; intros garr garr' Hg.
  eapply Forall2_impl; [|exact Hg]; intros r r'; apply setitem_field3_related.
Qed.

Lemma same_but_field3_refl (emb : ndarray3) :
  Forall2 (Forall2 same_but_field3) emb emb.
Proof.
  apply Forall2_diag; intros garr; apply Forall2_diag; intros r.
  split; auto.
Qed.

Lemma sweep_from_start (unit_of : float64 -> float64)
    (kernel : ndarray3 -> result float64) (emb0 : ndarray3)
    (vals : list float64) :
  forall (emb : ndarray3) (logs : list float64),
    Forall2 (Forall2 same_but_field3) emb0 emb ->
    logliks_of (foldM (sweep_step unit_of kernel) vals (emb, logs)) =
    (ls <- mapM (fun val => e <- assign_field3 emb0 (unit_of val) ;; kernel e)
                vals ;;
     Ok (logs ++ ls)).
Proof.
  induction vals as [|val vals IH]; intros emb logs Hrel; cbn [foldM mapM].
  - unfold logliks_of; cbn [bind snd]; now rewrite app_nil_r.
  - unfold sweep_step at 1; cbn [fst snd].
    rewrite (assign_field3_same emb0 emb _ Hrel).
    destruct (assign_field3 emb0 (unit_of val)) as [e|] eqn:He; cbn [bind];
      [|reflexivity].
    destruct (kernel e) as [loglik|]; cbn [bind]; [|reflexivity].
    rewrite (IH e (logs ++ [loglik]) (assign_field3_related emb0 e _ He)).
    destruct (mapM _ vals); cbn [bind]; [|reflexivity].
    now rewrite <- app_assoc.
Qed.

(** X6.  A sweep does not carry anything from one test value to the next:
    although the array is overwritten in place, the log-likelihood stored
    for each test value is the one of the original array with that value
    written to field 3, and the first exception of these ends the sweep. *)
Theorem sweep_values_independent (emb : ndarray3) (test_values : list float64) :
  logliks_of (test_kingman_sweep emb test_values) =
  mapM (fun val => e <- assign_field3 emb val ;;
                   _get_msc_loglik_from_embedding_array e) test_values
  /\ logliks_of (test_msc_sweep emb test_values) =
     mapM (fun val => e <- assign_field3 emb (fmul val (Fin 2)) ;;
                      _get_msc_loglik_from_embedding e) test_values.
Proof.
  unfold test_kingman_sweep, test_msc_sweep; split.
  - rewrite (sweep_from_start _ _ emb test_values emb [] (same_but_field3_refl emb)).
    destruct (mapM _ test_values); reflexivity.
  - rewrite (sweep_from_start _ _ emb test_values emb [] (same_but_field3_refl emb)).
    destruct (mapM _ test_values); reflexivity.
Qed.

Lemma setitem_field3_doubled (r : row) (v : float64) :
  setitem r 3 (fmul v (Fin 2)) = (r' <- setitem r 3 v ;; Ok (double_field3 r')).
Proof. destruct r as [|x0 [|x1 [|x2 [|x3 rest]]]]; reflexivity. Qed.

Lemma mapM_then_map {A B : Type} (g : A -> result B) (h : B -> B) (xs : list A) :
  mapM (fun x => y <- g x ;; Ok (h y)) xs =
  (ys <- mapM g xs ;; Ok (map h ys)).
Proof.
  induction xs as [|x xs IH]; simpl; [reflexivity|].
  destruct (g x); simpl; [|reflexivity].
  rewrite IH; destruct (mapM g xs); reflexivity.
Qed.

Lemma assign_field3_doubled (emb : ndarray3) (v : float64) :
  assign_field3 emb (fmul v (Fin 2)) =
  (e <- assign_field3 emb v ;; Ok (premultiply_field3 e)).
Proof.
  unfold assign_field3, premultiply_field3.
  transitivity
    (mapM (fun garr : ndarray2 =>
             y <- mapM (fun r : row => setitem r 3 v) garr ;;
             Ok (map double_field3 y)) emb);
    [|apply mapM_then_map].
  apply mapM_ext; intros garr.
  transitivity
    (mapM (fun r : row => r' <- setitem r 3 v ;; Ok (double_field3 r')) garr);
    [|apply mapM_then_map].
  apply mapM_ext; intros r; apply setitem_field3_doubled.
Qed.

(** X7.  The two sweeps agree: writing each test value to field 3 and
    running the Ne kernel ([test_kingman]) stores the same log-likelihoods,
    or ends in the same exception, as writing twice the value and running
    the 2Ne kernel ([test_msc]). *)
Theorem sweeps_agree (emb : ndarray3) (test_values : list float64) :
  logliks_of (test_kingman_sweep emb test_values) =
  logliks_of (test_msc_sweep emb test_values).
Proof.
  unfold test_kingman_sweep, test_msc_sweep.
  rewrite !(sweep_from_start _ _ emb test_values emb [] (same_but_field3_refl emb)).
  f_equal; apply mapM_ext; intros val.
  rewrite assign_field3_doubled.
  destruct (assign_field3 emb val) as [e|]; cbn [bind]; [|reflexivity].
  unfold _get_msc_loglik_from_embedding_array, _get_msc_loglik_from_embedding.
  symmetry; apply msc_kernel_premultiplied.
Qed.

(** ** More on the population-size update *)

Lemma setitem_Ok_length {A : Type} (a a' : list A) (i : nat) (v : A) :
  setitem a i v = Ok a' -> i < length a.
Proof.
  revert i a'; induction a as [|x a IH]; intros i a'; destruct i; simpl;
    try discriminate; [lia|].
  destruct (setitem a i v) eqn:Hs; simpl; [|discriminate].
  intros _; apply IH in Hs; lia.
Qed.

Lemma assign_row_where_wide (idx : nat) (popsize : float64) (r r' : row) :
  assign_row_where idx popsize r = Ok r' -> 4 <= length r.
Proof.
  unfold assign_row_where.
  destruct (getitem r 2) as [x2|]; cbn [bind]; [|discriminate].
  destruct (feq x2 (of_nat idx)).
  - intros H; apply setitem_Ok_length in H; lia.
  - change 3%Z with (Z.of_nat 3); rewrite getitem_nat.
    destruct (nth_error r 3) eqn:H3; cbn [bind]; [|discriminate].
    intros _; assert (3 < length r) by (apply nth_error_Some; congruence); lia.
Qed.

Lemma Forall2_left {A B : Type} (P : A -> Prop) (xs : list A) (ys : list B) :
  Forall2 (fun x _ => P x) xs ys -> Forall P xs.
Proof. induction 1; constructor; auto. Qed.

Lemma Forall2_functional {A B : Type} (R : A -> Prop) (P Q : A -> B -> Prop)
    (xs : list A) (ys zs : list B) :
  (forall x y z, R x -> P x y -> Q x z -> z = y) ->
  Forall R xs -> Forall2 P xs ys -> Forall2 Q xs zs -> zs = ys.
Proof.
  intros Hfun HR HP; revert zs; induction HP as [|x y xs ys Hxy _ IH];
    intros zs HQ; inversion HQ; subst; [reflexivity|].
  inversion HR; subst; f_equal; eauto.
Qed.

Lemma Forall_trivial {A : Type} (xs : list A) : Forall (fun _ => True) xs.
Proof. induction xs; constructor; auto. Qed.

Lemma branch_decide (x2 : float64) (start n : nat) :
  (exists i, i < n /\ feq x2 (of_nat (start + i)) = true) \/
  (forall i, i < n -> feq x2 (of_nat (start + i)) = false).
Proof.
  induction n as [|n [[i [Hi Hf]]|Hnone]].
  - right; intros i Hi; lia.
  - left; exists i; split; [lia|assumption].
  - destruct (feq x2 (of_nat (start + n))) eqn:Hn.
    + left; exists n; split; [lia|assumption].
    + right; intros i Hi.
      destruct (Nat.eq_dec i n) as [->|]; [assumption|apply Hnone; lia].
Qed.

Lemma update_row_fixed (popsizes : list float64) (r r' r'' : row) :
  update_row_per_branch 0 popsizes r = Ok r' ->
  update_row_per_branch 0 popsizes r' = Ok r'' ->
  r'' = r'.
Proof.
  intros H1 H2.
  destruct popsizes as [|p0 ps]; [inversion H1; inversion H2; congruence|].
  assert (Hx2 : exists x2, nth_error r 2 = Some x2).
  { unfold update_row_per_branch in H1; cbn [enumerate_from foldM fst snd] in H1.
    destruct (assign_row_where 0 p0 r) as [r1|] eqn:Ha; [|discriminate].
    destruct (assign_row_where_spec _ _ _ _ Ha) as [x2 [Hx2 _]]; eauto. }
  destruct Hx2 as [x2 Hx2].
  destruct (update_row_per_branch_spec _ 0 r r' x2 H1 Hx2)
    as [Hlen [Hother [Hhit Hmiss]]].
  assert (Hx2' : nth_error r' 2 = Some x2) by (rewrite Hother; auto).
  destruct (update_row_per_branch_spec _ 0 r' r'' x2 H2 Hx2')
    as [Hlen' [Hother' [Hhit' Hmiss']]].
  destruct (branch_decide x2 0 (length (p0 :: ps))) as [[i [Hi Hf]]|Hnone];
    [|now apply Hmiss'].
  destruct (nth_error (p0 :: ps) i) as [p|] eqn:Hp;
    [|apply nth_error_None in Hp; lia].
  apply nth_error_ext; intros j.
  destruct (Nat.eq_dec j 3) as [->|Hj]; [|now apply Hother'].
  now rewrite (Hhit i p Hp Hf), (Hhit' i p Hp Hf).
Qed.

Lemma update_neffs_keeps_wide (emb emb' : ndarray3) (popsizes : list float64) :
  _update_neffs emb popsizes = Ok emb' ->
  popsizes = [] \/ wide_enough emb'.
Proof.
  intros Hu; destruct popsizes as [|p0 ps]; [now left|right].
  assert (Hrow : Forall2 (Forall2 (fun r r' : row => 4 <= length r')) emb emb').
  { destruct (update_neffs_rows emb emb' _ Hu)
      as [[_ [v [_ Hrows]]]|[_ Hrows]].
    - eapply Forall2_impl; [|exact Hrows]; intros garr garr' Hg.
      eapply Forall2_impl; [|exact Hg]; intros r r' Hs; cbv beta.
      destruct (setitem_spec _ _ _ _ Hs) as [_ [Hl _]].
      apply setitem_Ok_length in Hs; lia.
    - eapply Forall2_impl; [|exact Hrows]; intros garr garr' Hg.
      eapply Forall2_impl; [|exact Hg]; intros r r' Hs; cbv beta.
      assert (Hw : 4 <= length r).
      { unfold update_row_per_branch in Hs.
        cbn [enumerate_from foldM fst snd] in Hs.
        destruct (assign_row_where 0 p0 r) as [r1|] eqn:H1; [|discriminate].
        eapply assign_row_where_wide; eassumption. }
      destruct (nth_error r 2) as [x2|] eqn:Hx2;
        [|apply nth_error_None in Hx2; lia].
      destruct (update_row_per_branch_spec _ 0 r r' x2 Hs Hx2) as [Hl _]; lia. }
  unfold wide_enough.
  apply Forall2_flip in Hrow; apply (Forall2_left _ emb' emb).
  eapply Forall2_impl; [|exact Hrow]; intros garr' garr Hg; cbv beta in *.
  apply Forall2_flip in Hg; apply (Forall2_left _ garr' garr).
  eapply Forall2_impl; [|exact Hg]; auto.
Qed.

(** X9.  The update is idempotent: on the array a call has returned, a
    second call with the same vector returns that array unchanged. *)
Theorem update_neffs_idempotent (emb emb' : ndarray3) (popsizes : list float64) :
  _update_neffs emb popsizes = Ok emb' ->
  _update_neffs emb' popsizes = Ok emb'.
Proof.
  intros Hu.
  destruct (update_neffs_keeps_wide emb emb' popsizes Hu) as [->|Hw];
    [reflexivity|].
  destruct (update_neffs_total emb' popsizes Hw) as [emb'' Hu2].
  rewrite Hu2; f_equal.
  destruct (update_neffs_rows emb emb' _ Hu)
    as [[Heq [v [Hv Hrows]]]|[Hneq Hrows]];
    destruct (update_neffs_rows emb' emb'' _ Hu2)
      as [[Heq2 [v2 [Hv2 Hrows2]]]|[Hneq2 Hrows2]]; try contradiction.
  - assert (v2 = v) by congruence; subst v2.
    pose proof (Forall2_compose _ _ _ _ _ Hrows Hrows2) as Hc.
    eapply (Forall2_functional (fun _ => True)); [|apply Forall_trivial|exact Hrows|exact Hc].
    intros garr g' g'' _ Hg [g0 [Hg0 Hg2]]; cbv beta in *.
    pose proof (Forall2_compose _ _ _ _ _ Hg0 Hg2) as Hcr.
    eapply (Forall2_functional (fun _ => True)); [|apply Forall_trivial|exact Hg|exact Hcr].
    intros r r' r'' _ Hs [r0 [Hs0 Hs2]]; cbv beta in *.
    assert (r0 = r') by congruence; subst r0.
    rewrite (setitem_same_but_field3 r r' v (setitem_field3_related r r' v Hs))
      in Hs2.
    congruence.
  - pose proof (Forall2_compose _ _ _ _ _ Hrows Hrows2) as Hc.
    eapply (Forall2_functional (fun _ => True)); [|apply Forall_trivial|exact Hrows|exact Hc].
    intros garr g' g'' _ Hg [g0 [Hg0 Hg2]]; cbv beta in *.
    pose proof (Forall2_compose _ _ _ _ _ Hg0 Hg2) as Hcr.
    eapply (Forall2_functional (fun _ => True)); [|apply Forall_trivial|exact Hg|exact Hcr].
    intros r r' r'' _ Hs [r0 [Hs0 Hs2]]; cbv beta in *.
    assert (r0 = r') by congruence; subst r0.
    eapply update_row_fixed; eassumption.
Qed.

Lemma update_neffs_idempotent_witness :
  _update_neffs
    [ one_coalescence (Fin 7) (Fin 0); one_coalescence (Fin 7) (Fin 0) ]
    [Fin 7] =
  Ok [ one_coalescence (Fin 7) (Fin 0); one_coalescence (Fin 7) (Fin 0) ].
Proof.
  refine (update_neffs_idempotent sample_embedding _ [Fin 7] _); reflexivity.
Defined.

Lemma feq_eq (x y : float64) : feq x y = true -> x = y.
Proof.
  destruct x as [a| | |], y as [b| | |]; simpl; try discriminate; try reflexivity.
  destruct (Req_dec_T a b); [now subst|discriminate].
Qed.

Lemma all_equal_entries (popsizes : list float64) (v : float64) :
  all_equal popsizes -> nth_error popsizes 0 = Some v ->
  forall i p, nth_error popsizes i = Some p -> p = v.
Proof.
  intros [v0 [rest [-> Hall]]] Hv i p Hp; simpl in Hv; inversion Hv; subst v0.
  destruct i as [|i]; simpl in Hp; [congruence|].
  apply feq_eq; rewrite Forall_forall in Hall; apply Hall.
  eapply nth_error_In; eassumption.
Qed.

(** X10.  The shortcut for a vector of equal entries agrees with the
    per-branch loop whenever field 2 of every row is an index of the
    vector: on such an array (with a field 3 in every row) both return the
    same array. *)
Theorem update_neffs_shortcut_agrees (emb : ndarray3) (popsizes : list float64) :
  all_equal popsizes ->
  branches_covered emb popsizes ->
  wide_enough emb ->
  exists emb',
    _update_neffs emb popsizes = Ok emb' /\
    per_branch_update emb popsizes = Ok emb'.
Proof.
  intros Heq Hcov Hw.
  destruct (update_neffs_total emb popsizes Hw) as [e1 Hu].
  destruct (per_branch_total (enumerate_from 0 popsizes) emb Hw) as [e2 Hp].
  exists e1; split; [exact Hu|].
  unfold per_branch_update; rewrite Hp; f_equal.
  destruct (update_neffs_rows emb e1 _ Hu) as [[_ [v [Hv Hrows]]]|[Hneq _]];
    [|contradiction].
  apply per_branch_rows in Hp.
  eapply Forall2_functional; [|exact Hcov|exact Hrows|exact Hp].
  intros garr g1 g2 Hgc Hg1 Hg2; cbv beta in *.
  eapply Forall2_functional; [|exact Hgc|exact Hg1|exact Hg2].
  intros r r1 r2 [x2 [i [Hx2 [Hi Hf]]]] Hs1 Hs2; cbv beta in *.
  destruct (setitem_spec _ _ _ _ Hs1) as [H3 [Hl1 Ho1]].
  destruct (update_row_per_branch_spec popsizes 0 r r2 x2 Hs2 Hx2)
    as [Hl2 [Ho2 [Hhit _]]].
  destruct (nth_error popsizes i) as [p|] eqn:Hpi;
    [|apply nth_error_None in Hpi; lia].
  assert (p = v) by (eapply all_equal_entries; eassumption); subst p.
  apply nth_error_ext; intros j.
  destruct (Nat.eq_dec j 3) as [->|Hj].
  - rewrite H3; now apply (Hhit i v Hpi).
  - now rewrite Ho1, Ho2.
Qed.

Lemma update_neffs_shortcut_agrees_witness :
  exists emb',
    _update_neffs sample_embedding [Fin 7] = Ok emb' /\
    per_branch_update sample_embedding [Fin 7] = Ok emb'.
Proof.
  refine (update_neffs_shortcut_agrees sample_embedding [Fin 7] _ _ _).
  - exists (Fin 7), []; split; [reflexivity|constructor].
  - assert (H0 : feq (Fin 0) (of_nat 0) = true).
    { unfold feq, of_nat; simpl; destruct (Req_dec_T 0 0);
        [reflexivity|contradiction]. }
    unfold branches_covered, sample_embedding, one_coalescence.
    repeat (first [apply Forall_nil | apply Forall_cons]);
      exists (Fin 0), 0; (split; [reflexivity|split; [simpl; lia|exact H0]]).
  - unfold wide_enough, sample_embedding, one_coalescence.
    repeat constructor; simpl; lia.
Defined.

(** * Further properties of the waiting-distance kernel *)

Lemma logpdf_zero_rate (l : R) :
  expon_logpdf1 (Fin l) (fdiv (Fin 1) (Fin 0)) = NInf.
Proof.
  assert (Hs : fdiv (Fin 1) (Fin 0) = PInf).
  { simpl; destruct (Req_dec_T 0 0) as [_|]; [|contradiction].
    apply scale_inf_pos; lra. }
  rewrite Hs; unfold expon_logpdf1; cbn [fsub fneg fadd fdiv fgt isnan fge].
  destruct (Rle_dec 0 0) as [_|Hn]; [reflexivity|exfalso; apply Hn; lra].
Qed.

Lemma logpdf_negative_length (l r : R) :
  (0 < r)%R -> (l < 0)%R ->
  expon_logpdf1 (Fin l) (fdiv (Fin 1) (Fin r)) = NInf.
Proof.
  intros Hr Hl.
  assert (Hs : (0 < 1 / r)%R) by (apply Rdiv_lt_0_compat; lra).
  assert (Hy : ((l + - 0) / (1 / r) = l * r)%R) by (field; lra).
  rewrite fdiv_Fin by lra.
  unfold expon_logpdf1; cbn [fsub fneg fadd].
  rewrite fdiv_Fin, Hy by lra.
  cbn [fgt fge isnan].
  destruct (Rlt_dec 0 (1 / r)) as [_|]; [|contradiction].
  destruct (Rle_dec 0 (l * r)) as [Hle|_]; [exfalso; nra|reflexivity].
Qed.

Lemma logpdf_negative_rate (x : float64) (r : R) :
  (r < 0)%R -> expon_logpdf1 x (fdiv (Fin 1) (Fin r)) = NaN.
Proof.
  intros Hr.
  assert (Hs : (1 / r < 0)%R).
  { unfold Rdiv; rewrite Rmult_1_l; now apply Rinv_neg. }
  rewrite fdiv_Fin by lra.
  unfold expon_logpdf1; cbn [fgt].
  destruct (Rlt_dec 0 (1 / r)) as [|_]; [lra|reflexivity].
Qed.

Lemma logpdf_nonneg_rate (l r : R) :
  (0 <= r)%R ->
  finite_or_ninf (expon_logpdf1 (Fin l) (fdiv (Fin 1) (Fin r))) /\
  (impossible_pair (r, l) ->
   expon_logpdf1 (Fin l) (fdiv (Fin 1) (Fin r)) = NInf).
Proof.
  intros Hr.
  destruct (Req_dec_T r 0) as [->|Hr0].
  - rewrite logpdf_zero_rate; split; [exact I|reflexivity].
  - destruct (Rlt_dec l 0) as [Hl|Hl].
    + rewrite logpdf_negative_length by lra; split; [exact I|reflexivity].
    + rewrite expon_logpdf1_positive by lra; split; [exact I|].
      intros [H|H]; simpl in H; lra.
Qed.

Lemma sum_with_ninf (xs : list float64) :
  Forall finite_or_ninf xs ->
  forall acc : float64,
    finite_or_ninf acc ->
    acc = NInf \/ Exists (fun x => x = NInf) xs ->
    fold_left fadd xs acc = NInf.
Proof.
  induction 1 as [|x xs Hx _ IH]; intros acc Hacc Hbad; simpl.
  - destruct Hbad as [->|Hex]; [reflexivity|inversion Hex].
  - apply IH.
    + destruct acc, x; simpl in *; tauto.
    + destruct Hbad as [->|Hex].
      * left; destruct x; simpl in *; tauto.
      * inversion Hex; subst; [left; destruct acc; simpl in *; tauto|now right].
Qed.

Lemma logpdf_list_nonneg (rs ls : list R) :
  length rs = length ls ->
  Forall (fun r => 0 <= r)%R rs ->
  exists out,
    expon_logpdf (map (fun r => fdiv (Fin 1) r) (map Fin rs)) (map Fin ls) =
    Ok out /\
    Forall finite_or_ninf out /\
    (Exists impossible_pair (combine rs ls) -> Exists (fun x => x = NInf) out).
Proof.
  intros Hlen Hrs; unfold expon_logpdf, broadcast2.
  rewrite !length_map, <- Hlen, Nat.eqb_refl.
  eexists; split; [reflexivity|].
  revert ls Hlen; induction Hrs as [|r rs Hr _ IH]; intros [|l ls] Hlen;
    try discriminate; cbn [map combine fst snd].
  - split; [constructor|inversion 1].
  - destruct (IH ls ltac:(now injection Hlen)) as [Hall Hex].
    destruct (logpdf_nonneg_rate l r Hr) as [Hfin Hbad].
    split; [now constructor|].
    intros Hpair; inversion Hpair; subst; [left; now apply Hbad|right; auto].
Qed.

Lemma sum_with_nan (xs : list float64) :
  forall acc : float64,
    acc = NaN \/ In NaN xs -> fold_left fadd xs acc = NaN.
Proof.
  induction xs as [|x xs IH]; intros acc Hbad; simpl.
  - destruct Hbad as [->|[]]; reflexivity.
  - apply IH; destruct Hbad as [->|[->|Hin]]; auto.
    left; destruct acc; reflexivity.
Qed.

Lemma logpdf_list_negative_rate (rates lengths : list float64) (r : R) :
  length rates = length lengths ->
  In (Fin r) rates -> (r < 0)%R ->
  exists out,
    expon_logpdf (map (fun x => fdiv (Fin 1) x) rates) lengths = Ok out /\
    In NaN out.
Proof.
  intros Hlen Hin Hr; unfold expon_logpdf, broadcast2.
  rewrite length_map, <- Hlen, Nat.eqb_refl.
  eexists; split; [reflexivity|].
  revert lengths Hlen; induction rates as [|x rates IH]; intros [|l lengths] Hlen;
    try discriminate; [destruct Hin|]; cbn [map combine fst snd].
  destruct Hin as [->|Hin].
  - left; now apply logpdf_negative_rate.
  - right; apply IH; [assumption|now injection Hlen].
Qed.

Lemma waiting_distance_mismatch (rates lengths : list float64) :
  length lengths <> length rates ->
  length lengths <> 1 -> length rates <> 1 ->
  waiting_distance_loglik rates lengths = Raise ValueError.
Proof.
  intros Hne Hl1 Hr1.
  unfold waiting_distance_loglik, expon_logpdf, broadcast2.
  rewrite length_map.
  destruct (Nat.eqb_spec (length lengths) (length rates)); [contradiction|].
  destruct lengths as [|x [|x' lengths']]; simpl in Hl1; try lia;
    destruct rates as [|y [|y' rates']]; simpl in Hr1, Hne; try lia;
    reflexivity.
Qed.

Lemma broadcast_single_length (rates : list float64) (l : float64) :
  waiting_distance_loglik rates [l] =
  waiting_distance_loglik rates (repeat l (length rates)).
Proof.
  unfold waiting_distance_loglik, expon_logpdf, broadcast2.
  rewrite repeat_length, !length_map, Nat.eqb_refl.
  set (scales := map (fun r => fdiv (Fin 1) r) rates).
  assert (Hmap : map (fun y => expon_logpdf1 l y) scales =
                 map (fun xy => expon_logpdf1 (fst xy) (snd xy))
                     (combine (repeat l (length rates)) scales)).
  { unfold scales; clear scales; induction rates as [|r rates IH];
      [reflexivity|]; cbn [map length repeat combine fst snd]; now rewrite IH. }
  cbn [length]; destruct (Nat.eqb_spec 1 (length rates)) as [H1|H1].
  - destruct rates as [|r [|r' rates]]; try discriminate; reflexivity.
  - now rewrite Hmap.
Qed.

Lemma waiting_sum_minimum (rs ls : list R) :
  length rs = length ls ->
  Forall (fun r => 0 < r)%R rs ->
  Forall (fun l => 0 < l)%R ls ->
  (- spec_waiting_sum (map (fun l => 1 / l) ls) ls <= - spec_waiting_sum rs ls)%R.
Proof.
  intros Hlen Hrs; revert ls Hlen; induction Hrs as [|r rs Hr _ IH];
    intros [|l ls] Hlen Hls; try discriminate; [simpl; lra|].
  inversion Hls as [|? ? Hl Hls']; subst.
  specialize (IH ls ltac:(now injection Hlen) Hls').
  cbn [map spec_waiting_sum].
  assert (Hrl : (0 < r * l)%R) by nra.
  pose proof (exp_ineq1_le (ln (r * l))) as Hexp.
  rewrite exp_ln, ln_mult in Hexp by assumption.
  assert (Hinv : ln (1 / l) = (- ln l)%R)
    by (unfold Rdiv; rewrite Rmult_1_l; now apply ln_Rinv).
  assert (Hone : (1 / l * l = 1)%R) by (field; lra).
  rewrite Hinv, Hone; lra.
Qed.

Section SMC_further.

Variables EncArray BarrArray RarrArray : Type.
Variables tree_lambdas topo_lambdas : rate_provider EncArray BarrArray RarrArray.
Variables SpeciesTree ToyTree Imap : Type.
Variable TreeEmbedding_new :
  SpeciesTree -> list ToyTree -> Imap ->
  result (TreeEmbedding EncArray BarrArray RarrArray).

(** X11.  With finite rates that are not negative and as many finite
    lengths, a pair of probability zero, a zero rate or a negative length,
    makes the kernel return plus infinity; nothing is raised. *)
Theorem waiting_distance_zero_likelihood
    (embedding : TreeEmbedding EncArray BarrArray RarrArray)
    (recombination_rate : float64) (event_type : Z) (idxs : option (list Z))
    (rs ls : list R) :
  get_rates tree_lambdas topo_lambdas embedding recombination_rate
    event_type idxs = Ok (map Fin rs) ->
  length rs = length ls ->
  Forall (fun r => 0 <= r)%R rs ->
  Exists impossible_pair (combine rs ls) ->
  get_ms_smc_loglik_from_embedding tree_lambdas topo_lambdas embedding
    recombination_rate (map Fin ls) event_type idxs = Ok PInf.
Proof.
  intros Hrates Hlen Hrs Hbad.
  unfold get_ms_smc_loglik_from_embedding; rewrite Hrates; cbn [bind].
  unfold waiting_distance_loglik.
  destruct (logpdf_list_nonneg rs ls Hlen Hrs) as [out [Hout [Hall Hex]]].
  rewrite Hout; cbn [bind]; unfold np_sum.
  rewrite (sum_with_ninf out Hall (Fin 0) I (or_intror (Hex Hbad))).
  reflexivity.
Qed.

(** X12.  With as many lengths as rates, one finite negative rate makes
    the kernel return NaN, whatever the other rates and the lengths are. *)
Theorem waiting_distance_negative_rate
    (embedding : TreeEmbedding EncArray BarrArray RarrArray)
    (recombination_rate : float64) (lengths : list float64) (event_type : Z)
    (idxs : option (list Z)) (rates : list float64) (r : R) :
  get_rates tree_lambdas topo_lambdas embedding recombination_rate
    event_type idxs = Ok rates ->
  length rates = length lengths ->
  In (Fin r) rates ->
  (r < 0)%R ->
  get_ms_smc_loglik_from_embedding tree_lambdas topo_lambdas embedding
    recombination_rate lengths event_type idxs = Ok NaN.
Proof.
  intros Hrates Hlen Hin Hr.
  unfold get_ms_smc_loglik_from_embedding; rewrite Hrates; cbn [bind].
  unfold waiting_distance_loglik.
  destruct (logpdf_list_negative_rate rates lengths r Hlen Hin Hr)
    as [out [Hout Hnan]].
  rewrite Hout; cbn [bind]; unfold np_sum.
  rewrite (sum_with_nan out (Fin 0) (or_intror Hnan)); reflexivity.
Qed.

(** X13.  A single observed length is used for every genealogy: the call
    returns what it returns with that length repeated once per rate. *)
Theorem waiting_distance_single_length
    (embedding : TreeEmbedding EncArray BarrArray RarrArray)
    (recombination_rate : float64) (l : float64) (event_type : Z)
    (idxs : option (list Z)) (rates : list float64) :
  get_rates tree_lambdas topo_lambdas embedding recombination_rate
    event_type idxs = Ok rates ->
  get_ms_smc_loglik_from_embedding tree_lambdas topo_lambdas embedding
    recombination_rate [l] event_type idxs =
  get_ms_smc_loglik_from_embedding tree_lambdas topo_lambdas embedding
    recombination_rate (repeat l (length rates)) event_type idxs.
Proof.
  intros Hrates; unfold get_ms_smc_loglik_from_embedding.
  rewrite Hrates; cbn [bind]; apply broadcast_single_length.
Qed.

(** X14.  The wrapper cannot score a proper subset: when the provider
    returns one rate per index, and the number of indices is neither 1 nor
    the number of genealogies (itself not 1), every call fails, either at
    the assertion on the lengths or at the broadcast. *)
Theorem get_ms_smc_loglik_subset_fails (species_tree : SpeciesTree)
    (genealogies : genealogies_arg ToyTree) (imap : Imap)
    (recombination_rate : float64) (lengths : list float64)
    (event_type : Z) (idxs : list Z) :
  (forall embedding rates,
      get_rates tree_lambdas topo_lambdas embedding recombination_rate
        event_type (Some idxs) = Ok rates ->
      length rates = length idxs) ->
  length idxs <> length (genealogy_list genealogies) ->
  length idxs <> 1 ->
  length (genealogy_list genealogies) <> 1 ->
  forall v,
    get_ms_smc_loglik tree_lambdas topo_lambdas TreeEmbedding_new
      species_tree genealogies imap recombination_rate lengths
      event_type (Some idxs) <> Ok v.
Proof.
  intros Hcontract Hne Hi1 Hg1 v; unfold get_ms_smc_loglik.
  fold (genealogy_list genealogies).
  destruct (Nat.eqb_spec (length lengths) (length (genealogy_list genealogies)))
    as [Hlen|_]; [|discriminate].
  cbn [py_assert bind].
  destruct (TreeEmbedding_new species_tree (genealogy_list genealogies) imap)
    as [embedding|]; cbn [bind]; [|discriminate].
  unfold get_ms_smc_loglik_from_embedding.
  destruct (get_rates tree_lambdas topo_lambdas embedding recombination_rate
              event_type (Some idxs)) as [rates|] eqn:Hrates; cbn [bind];
    [|discriminate].
  pose proof (Hcontract embedding rates Hrates) as Hr.
  rewrite waiting_distance_mismatch; [discriminate| | |]; lia.
Qed.

End SMC_further.

Lemma waiting_distance_zero_likelihood_witness :
  get_ms_smc_loglik_from_embedding (constant_provider (Fin 0)) raising_provider
    sample_tree_embedding (Fin 1) (map Fin [5; 5; 5]%R) 1 None = Ok PInf.
Proof.
  refine (waiting_distance_zero_likelihood unit unit unit
            (constant_provider (Fin 0)) raising_provider
            sample_tree_embedding (Fin 1) 1 None
            [0; 0; 0]%R [5; 5; 5]%R _ _ _ _).
  - reflexivity.
  - reflexivity.
  - repeat constructor; lra.
  - left; left; reflexivity.
Defined.

Lemma waiting_distance_negative_rate_witness :
  get_ms_smc_loglik_from_embedding (constant_provider (Fin (-1)))
    raising_provider sample_tree_embedding (Fin 1)
    [Fin 5; Fin 5; Fin 5] 1 None = Ok NaN.
Proof.
  refine (waiting_distance_negative_rate unit unit unit
            (constant_provider (Fin (-1))) raising_provider
            sample_tree_embedding (Fin 1) [Fin 5; Fin 5; Fin 5] 1 None
            [Fin (-1); Fin (-1); Fin (-1)] (-1) _ _ _ _).
  - reflexivity.
  - reflexivity.
  - now left.
  - lra.
Defined.

Lemma waiting_distance_single_length_witness :
  get_ms_smc_loglik_from_embedding (constant_provider (Fin 2)) raising_provider
    sample_tree_embedding (Fin 1) [Fin 5] 1 None =
  get_ms_smc_loglik_from_embedding (constant_provider (Fin 2)) raising_provider
    sample_tree_embedding (Fin 1) [Fin 5; Fin 5; Fin 5] 1 None.
Proof.
  refine (waiting_distance_single_length unit unit unit
            (constant_provider (Fin 2)) raising_provider
            sample_tree_embedding (Fin 1) (Fin 5) 1 None
            [Fin 2; Fin 2; Fin 2] _).
  reflexivity.
Defined.

Lemma get_ms_smc_loglik_subset_fails_witness :
  exists e,
    get_ms_smc_loglik (constant_provider (Fin 2)) raising_provider
      (fun (_ : unit) (_ : list unit) (_ : unit) => Ok sample_tree_embedding)
      tt (TreeSeq [tt; tt; tt]) tt (Fin 1) [Fin 5; Fin 5; Fin 5] 1
      (Some [0; 1]%Z) = Raise e.
Proof.
  destruct (get_ms_smc_loglik (constant_provider (Fin 2)) raising_provider
              (fun (_ : unit) (_ : list unit) (_ : unit) =>
                 Ok sample_tree_embedding)
              tt (TreeSeq [tt; tt; tt]) tt (Fin 1) [Fin 5; Fin 5; Fin 5] 1
              (Some [0; 1]%Z)) as [v|e] eqn:Hk;
    [exfalso; revert v Hk|now exists e].
  refine (get_ms_smc_loglik_subset_fails unit unit unit
            (constant_provider (Fin 2)) raising_provider unit unit unit
            (fun (_ : unit) (_ : list unit) (_ : unit) =>
               Ok sample_tree_embedding)
            tt (TreeSeq [tt; tt; tt]) tt (Fin 1) [Fin 5; Fin 5; Fin 5] 1
            [0; 1]%Z _ _ _ _).
  - intros embedding rates H; unfold get_rates, rate_function in H.
    simpl in H; inversion H; reflexivity.
  - simpl; lia.
  - simpl; lia.
  - simpl; lia.
Defined.

(** X15.  For positive lengths the kernel's value is smallest at the rates
    [1 / length]: no positive rates give a smaller negative log-likelihood
    than the reciprocals of the observed lengths. *)
Theorem waiting_distance_minimum (rs ls : list R) :
  length rs = length ls ->
  Forall (fun r => 0 < r)%R rs ->
  Forall (fun l => 0 < l)%R ls ->
  exists a b : R,
    waiting_distance_loglik (map Fin rs) (map Fin ls) = Ok (Fin a) /\
    waiting_distance_loglik (map Fin (map (fun l => 1 / l)%R ls)) (map Fin ls) =
    Ok (Fin b) /\
    (b <= a)%R.
Proof.
  intros Hlen Hrs Hls.
  assert (Hls0 : Forall (fun l => 0 <= l)%R ls)
    by (eapply Forall_impl; [|exact Hls]; intros l Hl; cbv beta in *; lra).
  assert (Hinv : Forall (fun r => 0 < r)%R (map (fun l => 1 / l)%R ls)).
  { apply Forall_map; eapply Forall_impl; [|exact Hls].
    intros l Hl; cbv beta in *; apply Rdiv_lt_0_compat; lra. }
  exists (- spec_waiting_sum rs ls)%R,
         (- spec_waiting_sum (map (fun l => 1 / l) ls) ls)%R.
  split; [now apply waiting_distance_loglik_positive|].
  split; [apply waiting_distance_loglik_positive; auto; now rewrite length_map|].
  now apply waiting_sum_minimum.
Qed.

Lemma waiting_distance_minimum_witness :
  exists a b : R,
    waiting_distance_loglik (map Fin [2; 3]%R) (map Fin [5; 7]%R) = Ok (Fin a) /\
    waiting_distance_loglik (map Fin (map (fun l => 1 / l)%R [5; 7]%R))
      (map Fin [5; 7]%R) = Ok (Fin b) /\
    (b <= a)%R.
Proof.
  refine (waiting_distance_minimum [2; 3]%R [5; 7]%R _ _ _).
  - reflexivity.
  - repeat constructor; lra.
  - repeat constructor; lra.
Defined.

(** * The wrapper of the Ne kernel *)

Section MSC_wrapper_properties.

Variables SpeciesTree ToyTree Newick Imap EncArray : Type.
Variable mtree_treelist :
  list (tree_item ToyTree Newick) -> result (list ToyTree).
Variable get_genealogy_embedding_arrays :
  SpeciesTree -> list (tree_item ToyTree Newick) -> Imap ->
  result (ndarray3 * EncArray).

(** X16.  For a sequence of gene trees that starts with a tree object,
    [get_msc_loglik] hands the sequence as it is to the embedding builder
    and scores the array it returns with field 3 read as Ne: the result is
    the one of the 2Ne kernel on that array with field 3 doubled.  An empty
    sequence raises [IndexError] before the builder is called. *)
Theorem get_msc_loglik_reads_Ne (species_tree : SpeciesTree)
    (t : ToyTree) (rest : list (tree_item ToyTree Newick)) (imap : Imap)
    (emb : ndarray3) (enc : EncArray) :
  get_genealogy_embedding_arrays species_tree (ATree t :: rest) imap =
  Ok (emb, enc) ->
  get_msc_loglik mtree_treelist get_genealogy_embedding_arrays species_tree
    (ItemSeq (ATree t :: rest)) imap =
  _get_msc_loglik_from_embedding (premultiply_field3 emb)
  /\ get_msc_loglik mtree_treelist get_genealogy_embedding_arrays species_tree
       (ItemSeq []) imap = Raise IndexError.
Proof.
  intros Hbuild; split; [|reflexivity].
  unfold get_msc_loglik.
  replace (getitem (ATree t :: rest) 0) with (Ok (@ATree ToyTree Newick t))
    by reflexivity.
  cbn [bind]; rewrite Hbuild; cbn [bind fst].
  unfold _get_msc_loglik_from_embedding_array, _get_msc_loglik_from_embedding.
  symmetry; apply msc_kernel_premultiplied.
Qed.

End MSC_wrapper_properties.

Lemma get_msc_loglik_reads_Ne_witness :
  get_msc_loglik
    (fun _ : list (tree_item unit unit) => Raise ExternalError)
    (fun (_ : unit) (_ : list (tree_item unit unit)) (_ : unit) =>
       Ok (sample_embedding, tt))
    tt (ItemSeq [ATree tt; ATree tt]) tt =
  _get_msc_loglik_from_embedding (premultiply_field3 sample_embedding).
Proof.
  refine (proj1 (get_msc_loglik_reads_Ne unit unit unit unit unit
                   (fun _ => Raise ExternalError)
                   (fun _ _ _ => Ok (sample_embedding, tt))
                   tt tt [ATree tt] tt sample_embedding tt _)).
  reflexivity.
Defined.
